(** * Higher-order function utilities of [functions-tasks.js]

    A shallow embedding of the closures exported by
    [src/functions-tasks.js] and the properties of its wrappers
    ([getPolynom], [memoize], [retry], [logger],
    [partialUsingArguments], [getIdGeneratorFunction]).

    Modelling conventions.
    - The values that the wrappers hand on without computing with them
      are the inductive [Val]; a number among them is an integer.  The
      two functions that compute with numbers, [getPolynom] and
      [getIdGeneratorFunction], work on binary64 numbers with the
      rounding, overflow and [NaN] of the language.
    - A JavaScript function passed in by the caller is a [JSFun]: a name
      and a behaviour that, from an argument list and the caller-visible
      world [W], either returns a value or throws one, and leaves a new
      world.  The world is abstract: it stands for every piece of state
      the callbacks can reach.  The variables captured by a wrapper are
      not part of it, so callbacks cannot touch them and do not call the
      wrapper that is running them.
    - A wrapper runs in a state-and-exception monad over a [Machine]: its
      captured variables, the world, and the trace of the calls it has
      made to the functions it was given. *)

From Stdlib Require Import ZArith String Ascii List Lia DecimalString SpecFloat.
From stdpp Require Import base list strings gmap.
From Equations Require Import Equations.

Local Open Scope Z_scope.

(** ** Values, outcomes, functions *)

Inductive Val : Type :=
| VUndefined
| VNull
| VBool (b : bool)
| VNum (n : Z)
| VStr (s : string)
| VRef (l : nat).

(** JavaScript's ToBoolean on the values above (an object reference is
    always truthy). *)
Definition truthy (v : Val) : bool :=
  match v with
  | VUndefined | VNull => false
  | VBool b => b
  | VNum n => negb (n =? 0)
  | VStr s => negb (String.eqb s EmptyString)
  | VRef _ => true
  end.

Inductive Outcome (A : Type) : Type :=
| Returns (a : A)
| Throws (e : Val).
Arguments Returns {A} a.
Arguments Throws {A} e.

Record JSFun (W : Type) : Type := {
  fn_name : string;
  fn_call : list Val -> W -> Outcome Val * W
}.
Arguments fn_name {W} _.
Arguments fn_call {W} _ _ _.

(** ** Machine state and the wrapper monad *)

Inductive Callee : Type := CFunc | CLog.

#[global] Instance Callee_eq_dec : EqDecision Callee.
Proof. solve_decision. Defined.

Inductive Event : Type :=
| Called (who : Callee) (args : list Val).

Definition callee (ev : Event) : Callee :=
  match ev with Called who _ => who end.

(** How many calls to [who] a trace records. *)
Definition calls_to (who : Callee) (tr : list Event) : nat :=
  length (filter (fun ev => callee ev = who) tr).

Record Machine (L W : Type) : Type := {
  locals : L;
  world : W;
  trace : list Event
}.
Arguments locals {L W} _.
Arguments world {L W} _.
Arguments trace {L W} _.

Definition Eff (S A : Type) : Type := S -> Outcome A * S.

Definition ret {S A : Type} (a : A) : Eff S A := fun s => (Returns a, s).

Definition throw {S A : Type} (e : Val) : Eff S A := fun s => (Throws e, s).

Definition bind {S A B : Type} (m : Eff S A) (k : A -> Eff S B) : Eff S B :=
  fun s =>
    match m s with
    | (Returns a, s') => k a s'
    | (Throws e, s') => (Throws e, s')
    end.

Declare Scope eff_scope.
Delimit Scope eff_scope with eff.
Notation "'let!' x ':=' m 'in' k" := (bind m (fun x => k))
  (at level 10, x name, m at level 100, k at level 200) : eff_scope.
Notation "m ';;' k" := (bind m (fun _ => k))
  (at level 100, k at level 200, right associativity) : eff_scope.
Local Open Scope eff_scope.

Section Machines.
Context {L W : Type}.

Definition get_locals : Eff (Machine L W) L :=
  fun m => (Returns (locals m), m).

Definition set_locals (l : L) : Eff (Machine L W) unit :=
  fun m => (Returns tt, {| locals := l; world := world m; trace := trace m |}).

(** Calling a function the wrapper was given: the call is recorded, then
    the function runs on the world. *)
Definition invoke (who : Callee) (f : JSFun W) (args : list Val)
  : Eff (Machine L W) Val :=
  fun m =>
    let (r, w') := fn_call f args (world m) in
    (r, {| locals := locals m; world := w';
           trace := trace m ++ [Called who args] |}).

(** A closure: the initial value of its captured variables and the
    code of its body. *)
Record Closure : Type := {
  env : L;
  call : list Val -> Eff (Machine L W) Val
}.

(** The machine in which a freshly built closure starts. *)
Definition boot (c : Closure) (w : W) : Machine L W :=
  {| locals := env c; world := w; trace := [] |}.

(** Successive invocations of one closure, one per argument list. *)
Fixpoint invocations (c : Closure) (argss : list (list Val)) (m : Machine L W)
  : list (Outcome Val) * Machine L W :=
  match argss with
  | [] => ([], m)
  | args :: rest =>
      let (r, m1) := call c args m in
      let (rs, m2) := invocations c rest m1 in
      (r :: rs, m2)
  end.

End Machines.
Arguments Closure : clear implicits.

(** ** memoize *)

Record MemoCell : Type := {
  cachedResult : Val;
  isCached : bool
}.

Section Memoize.
Context {W : Type}.

Definition assign_cachedResult (v : Val) : Eff (Machine MemoCell W) unit :=
  fun m => set_locals {| cachedResult := v; isCached := isCached (locals m) |} m.

Definition assign_isCached (b : bool) : Eff (Machine MemoCell W) unit :=
  fun m => set_locals {| cachedResult := cachedResult (locals m); isCached := b |} m.

Definition memoize (func : JSFun W) : Closure MemoCell W :=
  {| env := {| cachedResult := VUndefined; isCached := false |};
     call := fun _ =>
       let! c := get_locals in
       (if negb (isCached c) then
          let! v := invoke CFunc func [] in
          assign_cachedResult v ;;
          assign_isCached true
        else ret tt) ;;
       let! c := get_locals in
       ret (cachedResult c) |}.
End Memoize.

(** ** retry *)

Section Retry.
Context {W : Type}.

(** The [for] loop of the wrapper: [i] is the loop counter and
    [lastError] the variable of that name.  [return func()] inside
    [try] leaves the wrapper with the value; the [catch] clause stores
    the error and the loop goes on with [i + 1]. *)
Equations retry_loop (func : JSFun W) (attempts i : Z) (lastError : Val)
  (m : Machine unit W) : Outcome Val * Machine unit W
  by wf (Z.to_nat (attempts - i)) lt :=
retry_loop func attempts i lastError m with Z_lt_dec i attempts := {
  | left _ with invoke CFunc func [] m := {
      | (Returns v, m') => (Returns v, m')
      | (Throws error, m') => retry_loop func attempts (i + 1) error m' };
  | right _ => throw lastError m }.
Next Obligation. lia. Qed.

Definition retry (func : JSFun W) (attempts : Z) : Closure unit W :=
  {| env := tt;
     call := fun _ => retry_loop func attempts 0 VUndefined |}.
End Retry.

(** ** logger *)

(** [Array.prototype.map] with a callback that has effects: elements are
    visited from left to right and the first exception ends the walk. *)
Fixpoint map_eff {S A B : Type} (f : A -> Eff S B) (l : list A) : Eff S (list B) :=
  match l with
  | [] => ret []
  | a :: rest =>
      let! b := f a in
      let! bs := map_eff f rest in
      ret (b :: bs)
  end.

(** [Array.prototype.join] on an array whose elements are strings or
    [undefined] ([None]): an [undefined] element contributes the empty
    string. *)
Fixpoint join (sep : string) (l : list (option string)) : string :=
  match l with
  | [] => EmptyString
  | [x] => default EmptyString x
  | x :: rest => default EmptyString x +:+ sep +:+ join sep rest
  end.

Section Logger.
Context {W : Type}.

(** [JSON.stringify] is a built-in of the language, not code of the
    module: it is a parameter.  It reads the world (an object argument is
    serialized from its current contents), yields a string or
    [undefined], may throw, and may run user code ([toJSON]). *)
Variable JSON_stringify : Val -> W -> Outcome (option string) * W.

Definition stringify (arg : Val) : Eff (Machine unit W) (option string) :=
  fun m =>
    let (r, w') := JSON_stringify arg (world m) in
    (r, {| locals := locals m; world := w'; trace := trace m |}).

Definition logger (func logFunc : JSFun W) : Closure unit W :=
  {| env := tt;
     call := fun args =>
       let funcName := fn_name func in
       let! strs := map_eff stringify args in
       let argsString := join "," strs in
       invoke CLog logFunc [VStr (funcName +:+ "(" +:+ argsString +:+ ") starts")] ;;
       let! result := invoke CFunc func args in
       invoke CLog logFunc [VStr (funcName +:+ "(" +:+ argsString +:+ ") ends")] ;;
       ret result |}.
End Logger.

(** ** partialUsingArguments *)

Definition partialUsingArguments {W : Type} (fn : JSFun W) (args1 : list Val)
  : Closure unit W :=
  {| env := tt;
     call := fun args2 => invoke CFunc fn (args1 ++ args2) |}.

(** ** Numbers *)

(** The numbers of the language are binary64 floating-point numbers:
    [spec_float] of the standard library with 53 bits of precision and
    the infinities at exponent 1024.  [add64] and [mul64] are the [+] and
    [*] of the language on numbers. *)
Definition add64 : spec_float -> spec_float -> spec_float := SFadd 53 1024.

Definition mul64 : spec_float -> spec_float -> spec_float := SFmul 53 1024.

(** The number an integer literal [z] denotes: the binary64 number
    nearest to [z], ties to even. *)
Definition of_Z (z : Z) : spec_float := binary_normalize 53 1024 z 0 false.

(** [base ** power] for an exponent that is a natural number.  Exponent
    zero gives [1] for every base, [NaN] included; the cases of a [NaN],
    infinite or zero base are those the language specification lists.
    For a finite base other than zero the specification leaves the result
    to the implementation; here it is the exact power rounded to the
    nearest binary64 number, which is the exact power whenever that is a
    binary64 number. *)
Definition exponentiate (base : spec_float) (power : nat) : spec_float :=
  match power with
  | O => of_Z 1
  | S _ =>
      match base with
      | S754_nan => S754_nan
      | S754_infinity s => S754_infinity (s && Nat.odd power)
      | S754_zero s => S754_zero (s && Nat.odd power)
      | S754_finite s m e =>
          binary_round 53 1024 (s && Nat.odd power)
            (Pos.pow m (Pos.of_nat power)) (e * Z.of_nat power)
      end
  end.

(** The integer a number is, when it is one. *)
Definition int_value (f : spec_float) : option Z :=
  match f with
  | S754_zero _ => Some 0
  | S754_finite s m e =>
      if 0 <=? e then Some (cond_Zopp s (Zpos m * 2 ^ e))
      else if Zpos m mod 2 ^ (- e) =? 0 then Some (cond_Zopp s (Zpos m / 2 ^ (- e)))
      else None
  | _ => None
  end.

(** The integers of magnitude below [2 ^ 53]. *)
Definition safe (z : Z) : Prop := Z.abs z < 2 ^ 53.

(** ** getPolynom *)

(** [Array.prototype.reduce] with an initial value; the callback also
    receives the index of the element. *)
Fixpoint reduce_from {A B : Type} (f : B -> A -> nat -> B) (index : nat)
  (acc : B) (l : list A) : B :=
  match l with
  | [] => acc
  | a :: rest => reduce_from f (S index) (f acc a index) rest
  end.

Definition reduce {A B : Type} (f : B -> A -> nat -> B) (init : B) (l : list A) : B :=
  reduce_from f 0%nat init l.

(** [None] is the [null] the function returns for an empty coefficient
    list; [Some pol] is the function [pol].  The exponent
    [coefficients.length - index - 1] is computed on array lengths and
    indices, small natural numbers on which the subtraction is exact. *)
Definition getPolynom (coefficients : list spec_float)
  : option (spec_float -> spec_float) :=
  if (length coefficients =? 0)%nat then None
  else Some (fun x =>
    reduce (fun sum coeff index =>
              let power := (length coefficients - index - 1)%nat in
              add64 sum (mul64 coeff (exponentiate x power)))
           (S754_zero false) coefficients).


(** The same expression in the arithmetic of the language: every power,
    product and sum is a binary64 operation, and the terms are added to
    [sum] from left to right. *)
Fixpoint polynomial64 (sum : spec_float) (cs : list spec_float) (x : spec_float)
  : spec_float :=
  match cs with
  | [] => sum
  | c :: rest =>
      polynomial64 (add64 sum (mul64 c (exponentiate x (length rest)))) rest x
  end.


(** ** getIdGeneratorFunction *)

(** Every call of [getIdGeneratorFunction] creates a new variable
    [value]; the variables of all generators live in one store, indexed
    by location.  The generator returned is identified by the location of
    its variable. *)
Definition getIdGeneratorFunction (startFrom : spec_float)
  : Eff (gmap nat spec_float) nat :=
  fun store =>
    let value := fresh (dom store) in
    (Returns value, <[value := startFrom]> store).

(** The body of the generator whose variable is at [value]; [value += 1]
    is a binary64 addition.  Reading a variable that does not exist is a
    ReferenceError. *)
Definition generator (value : nat) : Eff (gmap nat spec_float) spec_float :=
  fun store =>
    match store !! value with
    | Some current =>
        let result := current in
        (Returns result, <[value := add64 current (of_Z 1)]> store)
    | None => (Throws (VStr "ReferenceError"), store)
    end.

(** Calls to generators, in the order of the schedule. *)
Fixpoint run_schedule (sched : list nat) (store : gmap nat spec_float)
  : list (Outcome spec_float) * gmap nat spec_float :=
  match sched with
  | [] => ([], store)
  | g :: rest =>
      let (r, store1) := generator g store in
      let (rs, store2) := run_schedule rest store1 in
      (r :: rs, store2)
  end.

(** [v] after [n] executions of [value += 1]. *)
Definition add_ones (n : nat) (v : spec_float) : spec_float :=
  Nat.iter n (fun value => add64 value (of_Z 1)) v.

(** ** Auxiliary notions used in the statements *)

(** [n] successive calls of [func] without arguments, started in [w]. *)
Fixpoint call_n {W : Type} (func : JSFun W) (n : nat) (w : W)
  : list (Outcome Val) * W :=
  match n with
  | O => ([], w)
  | S n' =>
      let (r, w1) := fn_call func [] w in
      let (rs, w2) := call_n func n' w1 in
      (r :: rs, w2)
  end.

(** How many of the first [i] calls of a schedule are calls to [g]. *)
Definition calls_before (g : nat) (i : nat) (sched : list nat) : nat :=
  length (filter (fun h => h = g) (take i sched)).

(** ** Concrete callbacks, for the examples *)

(** The function of the example in the documentation of [retry]: it
    counts its calls in the world and throws on the odd ones. *)
Definition flaky : JSFun nat :=
  {| fn_name := "flaky";
     fn_call := fun _ attempt =>
       let attempt := S attempt in
       if Nat.odd attempt then (Throws (VStr "test"), attempt)
       else (Returns (VNum (Z.of_nat attempt)), attempt) |}.

(** A function that always throws, each time a different error: the
    number of the call. *)
Definition hopeless : JSFun nat :=
  {| fn_name := "hopeless";
     fn_call := fun _ attempt => (Throws (VNum (Z.of_nat (S attempt))), S attempt) |}.

(** A function that returns a different number at each call. *)
Definition next_number : JSFun Z :=
  {| fn_name := "next_number";
     fn_call := fun _ seed => (Returns (VNum seed), seed + 1) |}.

(** A function that returns [undefined] and counts its calls. *)
Definition returns_undefined : JSFun nat :=
  {| fn_name := "returns_undefined";
     fn_call := fun _ n => (Returns VUndefined, S n) |}.

(** A world for the logger: the lines a collector has received, and the
    content of a one-element array that values [VRef _] refer to. *)
Record LogWorld : Type := {
  lines : list string;
  box : Z
}.

Definition decimal (n : Z) : string := NilZero.string_of_int (Z.to_int n).

Definition quote_mark : string := String (ascii_of_nat 34) EmptyString.

(** A serializer for the values of the examples (strings are taken to
    need no escaping). *)
Definition demo_stringify (v : Val) (w : LogWorld) : Outcome (option string) * LogWorld :=
  match v with
  | VUndefined => (Returns None, w)
  | VNull => (Returns (Some "null"), w)
  | VBool b => (Returns (Some (if b then "true" else "false")), w)
  | VNum n => (Returns (Some (decimal n)), w)
  | VStr s => (Returns (Some (quote_mark +:+ s +:+ quote_mark)), w)
  | VRef _ => (Returns (Some ("[" +:+ decimal (box w) +:+ "]")), w)
  end.

(** A logging function that stores the line it is given. *)
Definition collector : JSFun LogWorld :=
  {| fn_name := "collector";
     fn_call := fun args w =>
       match args with
       | VStr line :: _ =>
           (Returns VUndefined, {| lines := lines w ++ [line]; box := box w |})
       | _ => (Returns VUndefined, w)
       end |}.

(** A logging function that throws. *)
Definition broken_log : JSFun LogWorld :=
  {| fn_name := "broken_log";
     fn_call := fun _ w => (Throws (VStr "log failed"), w) |}.

(** A function that changes the array its argument refers to and returns
    the new content. *)
Definition bump : JSFun LogWorld :=
  {| fn_name := "bump";
     fn_call := fun _ w =>
       (Returns (VNum (box w + 1)), {| lines := lines w; box := box w + 1 |}) |}.

(** A function that changes the array and then throws. *)
Definition bump_and_fail : JSFun LogWorld :=
  {| fn_name := "bump_and_fail";
     fn_call := fun _ w =>
       (Throws (VStr "boom"), {| lines := lines w; box := box w + 1 |}) |}.

(** JavaScript's ToString on the values above. *)
Definition to_js_string (v : Val) : string :=
  match v with
  | VUndefined => "undefined"
  | VNull => "null"
  | VBool b => if b then "true" else "false"
  | VNum n => decimal n
  | VStr s => s
  | VRef _ => "[object Object]"
  end.

(** The function of the example in the documentation of
    [partialUsingArguments], on string arguments:
    [function(x1,x2,x3,x4) { return x1 + x2 + x3 + x4; }]. *)
Definition concat4 : JSFun unit :=
  {| fn_name := "fn";
     fn_call := fun args w =>
       let x i := to_js_string (nth i args VUndefined) in
       (Returns (VStr (x 0%nat +:+ x 1%nat +:+ x 2%nat +:+ x 3%nat)), w) |}.

(** ** Further notions used in the statements *)

(** The canonical binary64 form of a positive integer below [2 ^ 53],
    with sign [s]. *)
Definition canon (s : bool) (p : positive) : spec_float :=
  S754_finite s (Z.to_pos (Zpos p * 2 ^ (53 - Zpos (digits2_pos p))))
    (Zpos (digits2_pos p) - 53).

(** A function returned by [retry], [logger] or [partialUsingArguments],
    handed on as a function value: [name] is its [name] property (the
    source names them: [ar], [wrapper], and no name for an arrow
    function).  The calls it makes itself are its own business and do not
    enter the trace of whoever calls it. *)
Definition stateless_function {W : Type} (name : string) (c : Closure unit W)
  : JSFun W :=
  {| fn_name := name;
     fn_call := fun args w =>
       let (r, m) := call c args {| locals := tt; world := w; trace := [] |} in
       (r, world m) |}.

(** The function [ar] that [partialUsingArguments] returns. *)
Definition ar {W : Type} (fn : JSFun W) (args1 : list Val) : JSFun W :=
  stateless_function "ar" (partialUsingArguments fn args1).

(** The variable of a memoized wrapper that holds no result yet. *)
Definition uncached (c : MemoCell) : Prop :=
  isCached c = false /\ cachedResult c = VUndefined.

(** A logging function whose output is outside the world of the
    callbacks, such as [console.log]: it returns [undefined] and leaves
    the world as it is. *)
Definition console_log {W : Type} : JSFun W :=
  {| fn_name := "log";
     fn_call := fun _ w => (Returns VUndefined, w) |}.

(** A logging function that accepts one line and throws from the second
    call on. *)
Definition picky_log : JSFun LogWorld :=
  {| fn_name := "picky_log";
     fn_call := fun args w =>
       match lines w, args with
       | [], VStr line :: _ =>
           (Returns VUndefined, {| lines := [line]; box := box w |})
       | _, _ => (Throws (VStr "log is full"), w)
       end |}.

(** A serializer that refuses object references, as [JSON.stringify]
    refuses a circular structure. *)
Definition strict_stringify (v : Val) (w : LogWorld) : Outcome (option string) * LogWorld :=
  match v with
  | VRef _ => (Throws (VStr "TypeError"), w)
  | _ => demo_stringify v w
  end.

(** * Properties *)

(** Unfolds the monad operations of a wrapper body. *)
Ltac eff_unfold :=
  cbv [bind ret throw get_locals set_locals invoke
       assign_cachedResult assign_isCached call boot env].

Lemma invocations_cons {L W : Type} (c : Closure L W) args rest (m : Machine L W) :
  invocations c (args :: rest) m =
  (let (r, m1) := call c args m in
   let (rs, m2) := invocations c rest m1 in (r :: rs, m2)).
Proof. reflexivity. Qed.

(** ** memoize *)

Section MemoizeFacts.
Context {W : Type}.
Implicit Types (func : JSFun W) (m : Machine MemoCell W) (args : list Val).

(** An invocation that finds the flag set returns the stored value and
    changes nothing: no call, no change of the world or of the cell. *)
Lemma memoize_hit func args m :
  isCached (locals m) = true ->
  call (memoize func) args m = (Returns (cachedResult (locals m)), m).
Proof.
  intros Hc. destruct m as [[cr ic] w tr]; simpl in Hc; subst ic.
  reflexivity.
Qed.

(** An invocation that finds the flag unset calls [func]; a normal
    return is stored and the flag set. *)
Lemma memoize_miss_returns func args m v w1 :
  isCached (locals m) = false ->
  fn_call func [] (world m) = (Returns v, w1) ->
  call (memoize func) args m =
    (Returns v, {| locals := {| cachedResult := v; isCached := true |};
                   world := w1; trace := trace m ++ [Called CFunc []] |}).
Proof.
  intros Hc Hf. destruct m as [[cr ic] w tr]; simpl in *; subst ic.
  eff_unfold. simpl. rewrite Hf. reflexivity.
Qed.

(** An invocation that finds the flag unset and whose call of [func]
    throws leaves the cell as it was. *)
Lemma memoize_miss_throws func args m e w1 :
  isCached (locals m) = false ->
  fn_call func [] (world m) = (Throws e, w1) ->
  call (memoize func) args m =
    (Throws e, {| locals := locals m; world := w1;
                  trace := trace m ++ [Called CFunc []] |}).
Proof.
  intros Hc Hf. destruct m as [[cr ic] w tr]; simpl in *; subst ic.
  eff_unfold. simpl. rewrite Hf. reflexivity.
Qed.

Lemma memoize_hits func argss m :
  isCached (locals m) = true ->
  invocations (memoize func) argss m =
    (repeat (Returns (cachedResult (locals m))) (length argss), m).
Proof.
  intros Hc. induction argss as [|args rest IH]; [reflexivity|].
  rewrite invocations_cons, (memoize_hit _ _ _ Hc), IH. reflexivity.
Qed.

(** C1. When the first call of [func] returns normally with [v], any
    sequence of invocations of the wrapper of [memoize func], whatever
    arguments they pass, returns [v] every time; the first invocation
    calls [func] and stores [v], the later ones call nothing: the trace
    of the whole run is the single call of [func], and the world is the
    one that call left. *)
Theorem memoize_calls_func_once func (w0 w1 : W) v args argss :
  fn_call func [] w0 = (Returns v, w1) ->
  invocations (memoize func) (args :: argss) (boot (memoize func) w0) =
    (repeat (Returns v) (S (length argss)),
     {| locals := {| cachedResult := v; isCached := true |};
        world := w1; trace := [Called CFunc []] |})
  /\ calls_to CFunc
       (trace (snd (invocations (memoize func) (args :: argss)
                      (boot (memoize func) w0)))) = 1%nat.
Proof.
  intros Hf.
  assert (Hrun : invocations (memoize func) (args :: argss) (boot (memoize func) w0) =
    (repeat (Returns v) (S (length argss)),
     {| locals := {| cachedResult := v; isCached := true |};
        world := w1; trace := [Called CFunc []] |})).
  { rewrite invocations_cons.
    rewrite (memoize_miss_returns func args (boot (memoize func) w0) v w1 eq_refl Hf).
    rewrite memoize_hits by reflexivity. reflexivity. }
  split; [exact Hrun|]. rewrite Hrun. reflexivity.
Qed.

(** C5. When the first call of [func] throws [e], the first invocation
    of the wrapper throws [e] itself and leaves the cell as [memoize]
    created it, flag unset; the next invocation calls [func] again and
    ends as that second call ends. *)
Theorem memoize_failure_is_not_cached func (w0 w1 w2 : W) e r args args' :
  fn_call func [] w0 = (Throws e, w1) ->
  fn_call func [] w1 = (r, w2) ->
  call (memoize func) args (boot (memoize func) w0) =
    (Throws e, {| locals := env (memoize func); world := w1;
                  trace := [Called CFunc []] |})
  /\ isCached (locals (snd (call (memoize func) args (boot (memoize func) w0)))) = false
  /\ invocations (memoize func) [args; args'] (boot (memoize func) w0) =
    ([Throws e; r],
     {| locals := match r with
                  | Returns v => {| cachedResult := v; isCached := true |}
                  | Throws _ => env (memoize func)
                  end;
        world := w2; trace := [Called CFunc []; Called CFunc []] |}).
Proof.
  intros Hf1 Hf2.
  pose proof (memoize_miss_throws func args (boot (memoize func) w0) e w1 eq_refl Hf1) as H1.
  split; [exact H1|]. split; [rewrite H1; reflexivity|].
  rewrite invocations_cons, H1, invocations_cons.
  destruct r as [v|e2].
  - erewrite memoize_miss_returns by (simpl; eauto). reflexivity.
  - erewrite memoize_miss_throws by (simpl; eauto). reflexivity.
Qed.

(** C9. Whether the wrapper calls [func] is decided by the flag alone:
    with the flag set the stored value is returned without any call,
    whatever that value is; and when the first call of [func] returns a
    falsy value ([undefined], [null], [false], [0], the empty string),
    the flag is set all the same and every later invocation returns that
    value without calling [func] again. *)
Theorem memoize_flag_not_value func :
  (forall m args, isCached (locals m) = true ->
     call (memoize func) args m = (Returns (cachedResult (locals m)), m))
  /\ (forall (w0 w1 : W) v args argss,
       truthy v = false ->
       fn_call func [] w0 = (Returns v, w1) ->
       snd (call (memoize func) args (boot (memoize func) w0)) =
         {| locals := {| cachedResult := v; isCached := true |};
            world := w1; trace := [Called CFunc []] |}
       /\ invocations (memoize func) argss
            (snd (call (memoize func) args (boot (memoize func) w0))) =
          (repeat (Returns v) (length argss),
           snd (call (memoize func) args (boot (memoize func) w0)))).
Proof.
  split.
  - intros m args Hc. by apply memoize_hit.
  - intros w0 w1 v args argss _ Hf.
    rewrite (memoize_miss_returns func args (boot (memoize func) w0) v w1 eq_refl Hf).
    split; [reflexivity|]. simpl. by rewrite memoize_hits.
Qed.
End MemoizeFacts.

Lemma memoize_calls_func_once_witness :
  invocations (memoize next_number) [[]; [VNum 1]; []] (boot (memoize next_number) 7) =
    ([Returns (VNum 7); Returns (VNum 7); Returns (VNum 7)],
     {| locals := {| cachedResult := VNum 7; isCached := true |};
        world := 8; trace := [Called CFunc []] |}).
Proof.
  exact (proj1 (@memoize_calls_func_once Z next_number 7 8 (VNum 7) [] [[VNum 1]; []] eq_refl)).
Defined.

Lemma memoize_failure_is_not_cached_witness :
  invocations (memoize flaky) [[]; []] (boot (memoize flaky) 0%nat) =
    ([Throws (VStr "test"); Returns (VNum 2)],
     {| locals := {| cachedResult := VNum 2; isCached := true |};
        world := 2%nat; trace := [Called CFunc []; Called CFunc []] |}).
Proof.
  exact (proj2 (proj2 (@memoize_failure_is_not_cached nat flaky 0%nat 1%nat 2%nat
                         (VStr "test") (Returns (VNum 2)) [] [] eq_refl eq_refl))).
Defined.

Lemma memoize_flag_not_value_witness :
  invocations (memoize returns_undefined) [[]; []; []]
    (snd (call (memoize returns_undefined) [] (boot (memoize returns_undefined) 0%nat))) =
    ([Returns VUndefined; Returns VUndefined; Returns VUndefined],
     {| locals := {| cachedResult := VUndefined; isCached := true |};
        world := 1%nat; trace := [Called CFunc []] |}).
Proof.
  exact (proj2 (proj2 (@memoize_flag_not_value nat returns_undefined) 0%nat 1%nat
                  VUndefined [] [[]; []; []] eq_refl eq_refl)).
Defined.

(** ** retry *)

Section RetryFacts.
Context {W : Type}.
Implicit Types (func : JSFun W) (m : Machine unit W) (attempts i : Z).

Lemma retry_loop_exit func attempts i lastError m :
  attempts <= i ->
  retry_loop func attempts i lastError m = (Throws lastError, m).
Proof.
  intros Hle. simp retry_loop.
  destruct (Z_lt_dec i attempts) as [Hlt|Hge]; [lia|reflexivity].
Qed.

Lemma retry_loop_body func attempts i lastError m :
  i < attempts ->
  retry_loop func attempts i lastError m =
    match invoke CFunc func [] m with
    | (Returns v, m') => (Returns v, m')
    | (Throws error, m') => retry_loop func attempts (i + 1) error m'
    end.
Proof.
  intros Hlt. simp retry_loop.
  destruct (Z_lt_dec i attempts) as [Hlt'|Hge]; [|lia].
  simpl. destruct (invoke CFunc func [] m) as [[v|error] m']; reflexivity.
Qed.

Lemma call_n_throws_inv func n e errs w w1 :
  call_n func (S n) w = (Throws e :: errs, w1) ->
  exists w', fn_call func [] w = (Throws e, w') /\ call_n func n w' = (errs, w1).
Proof.
  simpl. destruct (fn_call func [] w) as [r w'].
  destruct (call_n func n w') as [rs w2] eqn:Hrest.
  intros H. inversion H; subst. eauto.
Qed.

Lemma retry_loop_success func attempts errs : forall i lastError w tr w1 v w2,
  i + Z.of_nat (length errs) < attempts ->
  call_n func (length errs) w = (map Throws errs, w1) ->
  fn_call func [] w1 = (Returns v, w2) ->
  retry_loop func attempts i lastError {| locals := tt; world := w; trace := tr |} =
    (Returns v, {| locals := tt; world := w2;
                   trace := tr ++ repeat (Called CFunc []) (S (length errs)) |}).
Proof.
  induction errs as [|e errs IH]; intros i lastError w tr w1 v w2 Hlt Hn Hf.
  - simpl in Hn. injection Hn as <-.
    rewrite retry_loop_body by (simpl in Hlt; lia).
    unfold invoke. simpl. rewrite Hf. reflexivity.
  - apply call_n_throws_inv in Hn as (w' & He & Hn).
    rewrite retry_loop_body by (simpl in Hlt; lia).
    unfold invoke. simpl world. rewrite He. simpl locals. simpl trace.
    rewrite (IH (i + 1) e w' _ w1 v w2) by (simpl length in Hlt; eauto; lia).
    rewrite <- app_assoc. reflexivity.
Qed.

Lemma last_cons_default (e d : Val) (errs : list Val) :
  List.last (e :: errs) d = List.last errs e.
Proof.
  revert e d. induction errs as [|a errs IH]; intros e d; [reflexivity|].
  change (List.last (e :: a :: errs) d) with (List.last (a :: errs) d).
  by rewrite !IH.
Qed.

Lemma retry_loop_exhausted func attempts errs : forall i lastError w tr w1,
  i + Z.of_nat (length errs) = attempts ->
  call_n func (length errs) w = (map Throws errs, w1) ->
  retry_loop func attempts i lastError {| locals := tt; world := w; trace := tr |} =
    (Throws (List.last errs lastError),
     {| locals := tt; world := w1;
        trace := tr ++ repeat (Called CFunc []) (length errs) |}).
Proof.
  induction errs as [|e errs IH]; intros i lastError w tr w1 Hlen Hn.
  - simpl in Hn. injection Hn as <-. simpl in Hlen.
    rewrite retry_loop_exit by lia. simpl. by rewrite app_nil_r.
  - apply call_n_throws_inv in Hn as (w' & He & Hn).
    rewrite retry_loop_body by (simpl length in Hlen; lia).
    unfold invoke. simpl world. rewrite He. simpl locals. simpl trace.
    rewrite (IH (i + 1) e w' _ w1) by (simpl length in Hlen; eauto; lia).
    rewrite <- app_assoc, last_cons_default. reflexivity.
Qed.

(** The loop calls [func] and nothing else, at most once per remaining
    iteration. *)
Lemma retry_loop_bound func attempts (k : nat) : forall i lastError m,
  Z.to_nat (attempts - i) = k ->
  exists n : nat,
    (n <= k)%nat /\
    trace (snd (retry_loop func attempts i lastError m)) =
      trace m ++ repeat (Called CFunc []) n.
Proof.
  induction k as [|k IH]; intros i lastError m Hk.
  - rewrite retry_loop_exit by lia. exists 0%nat. simpl. by rewrite app_nil_r.
  - rewrite retry_loop_body by lia.
    unfold invoke. destruct (fn_call func [] (world m)) as [[v|error] w'].
    + exists 1%nat. split; [lia|reflexivity].
    + destruct (IH (i + 1) error
                  {| locals := locals m; world := w';
                     trace := trace m ++ [Called CFunc []] |}) as (n & Hn & Htr); [lia|].
      exists (S n). split; [lia|]. rewrite Htr. simpl. by rewrite <- app_assoc.
Qed.

(** C2. Invoking the wrapper of [retry func attempts] calls [func]
    repeatedly, each call starting in the world the previous one left,
    and nothing else, at most [attempts] times.  If the first calls throw
    [errs], fewer than [attempts] of them, and the next call returns [v],
    the wrapper returns [v] and has made exactly those calls.  If
    [attempts] calls, at least one, all throw, the wrapper throws the
    error of the last of them, after exactly [attempts] calls. *)
Theorem retry_first_success_or_last_error func attempts args :
  (forall w tr errs w1 v w2,
     Z.of_nat (length errs) < attempts ->
     call_n func (length errs) w = (map Throws errs, w1) ->
     fn_call func [] w1 = (Returns v, w2) ->
     call (retry func attempts) args {| locals := tt; world := w; trace := tr |} =
       (Returns v, {| locals := tt; world := w2;
                      trace := tr ++ repeat (Called CFunc []) (S (length errs)) |}))
  /\ (forall w tr errs e w1,
        attempts = Z.of_nat (length (errs ++ [e])) ->
        call_n func (length (errs ++ [e])) w = (map Throws (errs ++ [e]), w1) ->
        call (retry func attempts) args {| locals := tt; world := w; trace := tr |} =
          (Throws e, {| locals := tt; world := w1;
                        trace := tr ++ repeat (Called CFunc []) (length (errs ++ [e])) |}))
  /\ (forall m, exists n : nat,
        Z.of_nat n <= Z.max 0 attempts /\
        trace (snd (call (retry func attempts) args m)) =
          trace m ++ repeat (Called CFunc []) n).
Proof.
  split; [|split].
  - intros w tr errs w1 v w2 Hlt Hn Hf. simpl.
    by apply (retry_loop_success func attempts errs 0 VUndefined w tr w1 v w2).
  - intros w tr errs e w1 Hlen Hn. simpl.
    rewrite (retry_loop_exhausted func attempts (errs ++ [e]) 0 VUndefined w tr w1)
      by (auto; lia).
    by rewrite last_last.
  - intros m. simpl.
    destruct (retry_loop_bound func attempts (Z.to_nat (attempts - 0)) 0 VUndefined m eq_refl)
      as (n & Hn & Htr).
    exists n. split; [lia|exact Htr].
Qed.

(** C6. With [attempts] zero or negative the wrapper throws [undefined],
    the initial content of [lastError], and leaves the machine as it
    found it: the trace gets no entry, [func] is not called. *)
Theorem retry_without_attempts func attempts args m :
  attempts <= 0 ->
  call (retry func attempts) args m = (Throws VUndefined, m)
  /\ calls_to CFunc (trace (snd (call (retry func attempts) args m))) =
     calls_to CFunc (trace m).
Proof.
  intros Hle. simpl. rewrite retry_loop_exit by lia. split; reflexivity.
Qed.
End RetryFacts.

Lemma retry_first_success_or_last_error_witness :
  call (retry flaky 2) [] {| locals := tt; world := 0%nat; trace := [] |} =
    (Returns (VNum 2), {| locals := tt; world := 2%nat;
                          trace := [Called CFunc []; Called CFunc []] |})
  /\ call (retry hopeless 2) [] {| locals := tt; world := 0%nat; trace := [] |} =
    (Throws (VNum 2), {| locals := tt; world := 2%nat;
                         trace := [Called CFunc []; Called CFunc []] |}).
Proof.
  split.
  - apply (proj1 (@retry_first_success_or_last_error nat flaky 2 [])
             0%nat [] [VStr "test"] 1%nat (VNum 2) 2%nat); [simpl; lia|reflexivity|reflexivity].
  - apply (proj1 (proj2 (@retry_first_success_or_last_error nat hopeless 2 []))
             0%nat [] [VNum 1] (VNum 2) 2%nat); reflexivity.
Defined.

Lemma retry_without_attempts_witness :
  call (retry flaky (-3)) [] {| locals := tt; world := 0%nat; trace := [] |} =
    (Throws VUndefined, {| locals := tt; world := 0%nat; trace := [] |}).
Proof.
  apply (proj1 (@retry_without_attempts nat flaky (-3) []
                  {| locals := tt; world := 0%nat; trace := [] |} ltac:(lia))).
Defined.

(** ** logger *)

Section LoggerFacts.
Context {W : Type}.
Variable JSON_stringify : Val -> W -> Outcome (option string) * W.
Implicit Types (func logFunc : JSFun W) (m : Machine unit W) (args : list Val).

(** Serializing the arguments makes no call and keeps the locals. *)
Lemma serialize_keeps_trace args : forall m r m1,
  map_eff (stringify JSON_stringify) args m = (r, m1) ->
  trace m1 = trace m /\ locals m1 = locals m.
Proof.
  induction args as [|a args IH]; intros m r m1.
  - simpl. unfold ret. intros [= <- <-]. auto.
  - simpl. unfold bind at 1. unfold stringify at 1.
    destruct (JSON_stringify a (world m)) as [[s|e] w'].
    + unfold bind at 1.
      destruct (map_eff (stringify JSON_stringify) args
                  {| locals := locals m; world := w'; trace := trace m |})
        as [[ss|e] m2] eqn:Hrest.
      * unfold ret. intros [= <- <-]. by apply IH in Hrest.
      * intros [= <- <-]. by apply IH in Hrest.
    + intros [= <- <-]. auto.
Qed.

(** The body of the wrapper, step by step. *)
Lemma logger_call func logFunc args m :
  call (logger JSON_stringify func logFunc) args m =
    match map_eff (stringify JSON_stringify) args m with
    | (Throws e, m1) => (Throws e, m1)
    | (Returns strs, m1) =>
        let argsString := join "," strs in
        match invoke CLog logFunc
                [VStr (fn_name func +:+ "(" +:+ argsString +:+ ") starts")] m1 with
        | (Throws e, m2) => (Throws e, m2)
        | (Returns _, m2) =>
            match invoke CFunc func args m2 with
            | (Throws e, m3) => (Throws e, m3)
            | (Returns result, m3) =>
                match invoke CLog logFunc
                        [VStr (fn_name func +:+ "(" +:+ argsString +:+ ") ends")] m3 with
                | (Throws e, m4) => (Throws e, m4)
                | (Returns _, m4) => (Returns result, m4)
                end
            end
        end
    end.
Proof.
  simpl. unfold bind at 1.
  destruct (map_eff (stringify JSON_stringify) args m) as [[strs|e] m1]; [|reflexivity].
  unfold bind at 1.
  destruct (invoke CLog logFunc _ m1) as [[r1|e] m2]; [|reflexivity].
  unfold bind at 1.
  destruct (invoke CFunc func args m2) as [[result|e] m3]; [|reflexivity].
  unfold bind at 1.
  destruct (invoke CLog logFunc _ m3) as [[r2|e] m4]; reflexivity.
Qed.

(** C3. Let the arguments serialize to [strs] and [argsString] be their
    comma-joined text.  If [logFunc] returns normally on both lines and
    [func] returns [v] on [args], one invocation of the wrapper makes
    exactly three calls, in this order: [logFunc] with
    [<funcName>(<argsString>) starts], [func] with [args], [logFunc] with
    [<funcName>(<argsString>) ends]; and it returns [v].  If [func]
    throws [e] instead, the wrapper throws [e] after the first two
    calls: no [ends] line. *)
Theorem logger_logs_around_call func logFunc args m strs m1 :
  map_eff (stringify JSON_stringify) args m = (Returns strs, m1) ->
  let argsString := join "," strs in
  let starts := VStr (fn_name func +:+ "(" +:+ argsString +:+ ") starts") in
  let ends := VStr (fn_name func +:+ "(" +:+ argsString +:+ ") ends") in
  (forall r1 w2 v w3 r2 w4,
     fn_call logFunc [starts] (world m1) = (Returns r1, w2) ->
     fn_call func args w2 = (Returns v, w3) ->
     fn_call logFunc [ends] w3 = (Returns r2, w4) ->
     call (logger JSON_stringify func logFunc) args m =
       (Returns v,
        {| locals := locals m; world := w4;
           trace := trace m ++ [Called CLog [starts]; Called CFunc args;
                                Called CLog [ends]] |}))
  /\ (forall r1 w2 e w3,
        fn_call logFunc [starts] (world m1) = (Returns r1, w2) ->
        fn_call func args w2 = (Throws e, w3) ->
        call (logger JSON_stringify func logFunc) args m =
          (Throws e,
           {| locals := locals m; world := w3;
              trace := trace m ++ [Called CLog [starts]; Called CFunc args] |})).
Proof.
  intros Hser argsString starts ends.
  destruct (serialize_keeps_trace _ _ _ _ Hser) as [Htr Hloc].
  split.
  - intros r1 w2 v w3 r2 w4 H1 H2 H3.
    rewrite logger_call, Hser. cbv zeta. fold argsString. fold starts. fold ends.
    unfold invoke at 1. rewrite H1.
    unfold invoke at 1. simpl world. rewrite H2.
    unfold invoke at 1. simpl world. rewrite H3.
    simpl. rewrite Htr, Hloc, <- !app_assoc. reflexivity.
  - intros r1 w2 e w3 H1 H2.
    rewrite logger_call, Hser. cbv zeta. fold argsString. fold starts.
    unfold invoke at 1. rewrite H1.
    unfold invoke at 1. simpl world. rewrite H2.
    simpl. rewrite Htr, Hloc, <- !app_assoc. reflexivity.
Qed.

(** C10. The arguments are serialized first, in the machine the wrapper
    starts in, and making no call.  Whatever [func] and [logFunc] then
    do, the calls of the invocation are an initial part of: [logFunc]
    with the [starts] line, [func], [logFunc] with the [ends] line, both
    lines built from that one serialization.  If [logFunc] throws [e] on
    the [starts] line, the wrapper throws [e] after that single call:
    [func] is not called and there is no [ends] line. *)
Theorem logger_serializes_before_calls func logFunc args m strs m1 :
  map_eff (stringify JSON_stringify) args m = (Returns strs, m1) ->
  let argsString := join "," strs in
  let starts := VStr (fn_name func +:+ "(" +:+ argsString +:+ ") starts") in
  let ends := VStr (fn_name func +:+ "(" +:+ argsString +:+ ") ends") in
  trace m1 = trace m
  /\ (exists events,
        trace (snd (call (logger JSON_stringify func logFunc) args m)) =
          trace m ++ Called CLog [starts] :: events
        /\ events `prefix_of` [Called CFunc args; Called CLog [ends]])
  /\ (forall e w2,
        fn_call logFunc [starts] (world m1) = (Throws e, w2) ->
        call (logger JSON_stringify func logFunc) args m =
          (Throws e, {| locals := locals m; world := w2;
                        trace := trace m ++ [Called CLog [starts]] |})).
Proof.
  intros Hser argsString starts ends.
  destruct (serialize_keeps_trace _ _ _ _ Hser) as [Htr Hloc].
  split; [exact Htr|]. split.
  - rewrite logger_call, Hser. cbv zeta. fold argsString. fold starts. fold ends.
    unfold invoke at 1.
    destruct (fn_call logFunc [starts] (world m1)) as [[r1|e1] w2].
    + unfold invoke at 1. simpl world.
      destruct (fn_call func args w2) as [[v|e2] w3].
      * unfold invoke at 1. simpl world.
        destruct (fn_call logFunc [ends] w3) as [[r2|e3] w4]; simpl;
          exists [Called CFunc args; Called CLog [ends]];
          rewrite Htr, <- !app_assoc; split; done.
      * simpl. exists [Called CFunc args].
        rewrite Htr, <- !app_assoc. split; [done|].
        by exists [Called CLog [ends]].
    + simpl. exists []. rewrite Htr. split; [done|]. apply prefix_nil.
  - intros e w2 H1.
    rewrite logger_call, Hser. cbv zeta. fold argsString. fold starts.
    unfold invoke at 1. rewrite H1. simpl. by rewrite Htr, Hloc.
Qed.
End LoggerFacts.

Lemma logger_logs_around_call_witness :
  call (logger demo_stringify bump collector) [VRef 0; VNum 5]
       {| locals := tt; world := {| lines := []; box := 1 |}; trace := [] |} =
    (Returns (VNum 2),
     {| locals := tt;
        world := {| lines := ["bump([1],5) starts"; "bump([1],5) ends"]; box := 2 |};
        trace := [Called CLog [VStr "bump([1],5) starts"];
                  Called CFunc [VRef 0; VNum 5];
                  Called CLog [VStr "bump([1],5) ends"]] |})
  /\ call (logger demo_stringify bump_and_fail collector) [VRef 0; VNum 5]
       {| locals := tt; world := {| lines := []; box := 1 |}; trace := [] |} =
    (Throws (VStr "boom"),
     {| locals := tt;
        world := {| lines := ["bump_and_fail([1],5) starts"]; box := 2 |};
        trace := [Called CLog [VStr "bump_and_fail([1],5) starts"];
                  Called CFunc [VRef 0; VNum 5]] |}).
Proof.
  split.
  - apply (proj1 (@logger_logs_around_call LogWorld demo_stringify bump collector
                    [VRef 0; VNum 5]
                    {| locals := tt; world := {| lines := []; box := 1 |}; trace := [] |}
                    [Some "[1]"; Some "5"]
                    {| locals := tt; world := {| lines := []; box := 1 |}; trace := [] |}
                    eq_refl)
             VUndefined {| lines := ["bump([1],5) starts"]; box := 1 |}
             (VNum 2) {| lines := ["bump([1],5) starts"]; box := 2 |}
             VUndefined
             {| lines := ["bump([1],5) starts"; "bump([1],5) ends"]; box := 2 |});
      reflexivity.
  - apply (proj2 (@logger_logs_around_call LogWorld demo_stringify bump_and_fail collector
                    [VRef 0; VNum 5]
                    {| locals := tt; world := {| lines := []; box := 1 |}; trace := [] |}
                    [Some "[1]"; Some "5"]
                    {| locals := tt; world := {| lines := []; box := 1 |}; trace := [] |}
                    eq_refl)
             VUndefined {| lines := ["bump_and_fail([1],5) starts"]; box := 1 |}
             (VStr "boom") {| lines := ["bump_and_fail([1],5) starts"]; box := 2 |});
      reflexivity.
Defined.

Lemma logger_serializes_before_calls_witness :
  call (logger demo_stringify bump broken_log) [VRef 0]
       {| locals := tt; world := {| lines := []; box := 1 |}; trace := [] |} =
    (Throws (VStr "log failed"),
     {| locals := tt; world := {| lines := []; box := 1 |};
        trace := [Called CLog [VStr "bump([1]) starts"]] |}).
Proof.
  apply (proj2 (proj2 (@logger_serializes_before_calls LogWorld demo_stringify bump broken_log
                  [VRef 0]
                  {| locals := tt; world := {| lines := []; box := 1 |}; trace := [] |}
                  [Some "[1]"]
                  {| locals := tt; world := {| lines := []; box := 1 |}; trace := [] |}
                  eq_refl))
           (VStr "log failed") {| lines := []; box := 1 |}).
  reflexivity.
Defined.

(** [bump] changes the array its argument refers to; the [ends] line
    still shows the content the array had when the wrapper was entered. *)
Example logger_lines_ignore_mutation :
  let m' := snd (call (logger demo_stringify bump collector) [VRef 0]
                   {| locals := tt; world := {| lines := []; box := 1 |}; trace := [] |}) in
  lines (world m') = ["bump([1]) starts"; "bump([1]) ends"]
  /\ fst (demo_stringify (VRef 0) (world m')) = Returns (Some "[2]").
Proof. split; reflexivity. Qed.

(** An [undefined] argument leaves an empty place in the joined text; a
    string argument is quoted. *)
Example logger_line_of_mixed_arguments :
  trace (snd (call (logger demo_stringify bump collector)
                [VNum 5; VUndefined; VStr "a"; VNull]
                {| locals := tt; world := {| lines := []; box := 1 |}; trace := [] |})) =
  [Called CLog [VStr ("bump(5,," +:+ quote_mark +:+ "a" +:+ quote_mark +:+ ",null) starts")];
   Called CFunc [VNum 5; VUndefined; VStr "a"; VNull];
   Called CLog [VStr ("bump(5,," +:+ quote_mark +:+ "a" +:+ quote_mark +:+ ",null) ends")]].
Proof. reflexivity. Qed.

(** ** partialUsingArguments *)

(** C7. Calling the function returned for [fn] and [args1] with [args2]
    makes one call, of [fn] with [args1 ++ args2], and ends as that call
    ends.  Hence moving arguments between the two lists changes nothing:
    in particular ['a'] then ['b','c','d'] and ['a','b','c','d'] then
    nothing give the same run. *)
Theorem partial_application_concatenates {W : Type} (fn : JSFun W)
  (args1 args2 : list Val) (m : Machine unit W) :
  call (partialUsingArguments fn args1) args2 m =
    (fst (fn_call fn (args1 ++ args2) (world m)),
     {| locals := locals m;
        world := snd (fn_call fn (args1 ++ args2) (world m));
        trace := trace m ++ [Called CFunc (args1 ++ args2)] |})
  /\ (forall args3,
        call (partialUsingArguments fn (args1 ++ args2)) args3 m =
        call (partialUsingArguments fn args1) (args2 ++ args3) m)
  /\ call (partialUsingArguments fn [VStr "a"]) [VStr "b"; VStr "c"; VStr "d"] m =
     call (partialUsingArguments fn [VStr "a"; VStr "b"; VStr "c"; VStr "d"]) [] m.
Proof.
  split; [|split].
  - simpl. unfold invoke. by destruct (fn_call fn (args1 ++ args2) (world m)).
  - intros args3. simpl. by rewrite <- app_assoc.
  - reflexivity.
Qed.

Example partial_application_abcd :
  map (fun args1 =>
         fst (call (partialUsingArguments concat4 (map VStr (take args1 ["a"; "b"; "c"; "d"])))
                (map VStr (drop args1 ["a"; "b"; "c"; "d"]))
                {| locals := tt; world := tt; trace := [] |}))
      [1; 2; 3; 4]%nat
  = repeat (Returns (VStr "abcd")) 4.
Proof. reflexivity. Qed.

(** ** Numbers *)

(** Integer arithmetic in binary64 is exact on the safe integers: the
    lemmas of this part follow the rounding of [SFadd], [SFmul] and
    [binary_round] down to the shifts. *)

Lemma digits2_pos_size p : digits2_pos p = Pos.size p.
Proof. induction p; simpl; congruence. Qed.

Lemma digits2_pos_log2 p : Zpos (digits2_pos p) = Z.log2 (Zpos p) + 1.
Proof.
  rewrite digits2_pos_size. destruct p; simpl; rewrite ?Pos2Z.inj_succ; lia.
Qed.

Lemma digits2_pos_le_53 p : Zpos p < 2 ^ 53 -> Zpos (digits2_pos p) <= 53.
Proof.
  intros H. rewrite digits2_pos_log2.
  assert (Z.log2 (Zpos p) < 53) by (apply Z.log2_lt_pow2; lia). lia.
Qed.

Lemma digits_shifted (M P : positive) (K : Z) :
  0 <= K -> Zpos M = Zpos P * 2 ^ K ->
  Zpos (digits2_pos M) = Zpos (digits2_pos P) + K.
Proof.
  intros HK HM. rewrite !digits2_pos_log2, HM, Z.log2_mul_pow2 by lia. lia.
Qed.

Lemma iter_pos_iter {A : Type} (f : A -> A) (q : positive) : forall x,
  SpecFloat.iter_pos f q x = Pos.iter f x q.
Proof.
  induction q as [q IH|q IH|]; intros x; simpl.
  - rewrite !IH, !Pos.iter_swap. reflexivity.
  - rewrite !IH. reflexivity.
  - reflexivity.
Qed.

Lemma shr_1_even (m : Z) :
  0 < m -> shr_1 (Build_shr_record (m * 2) false false) = Build_shr_record m false false.
Proof.
  intros Hm. destruct m as [|p|p]; try lia.
  rewrite Z.mul_comm. reflexivity.
Qed.

Lemma iter_shr_1_exact (q : positive) : forall m,
  0 < m ->
  Pos.iter shr_1 (Build_shr_record (m * 2 ^ Zpos q) false false) q =
    Build_shr_record m false false.
Proof.
  induction q as [|q IH] using Pos.peano_ind; intros m Hm.
  - simpl Pos.iter. change (2 ^ 1) with 2. by apply shr_1_even.
  - rewrite Pos.iter_succ.
    replace (m * 2 ^ Zpos (Pos.succ q)) with ((m * 2) * 2 ^ Zpos q).
    + rewrite IH by lia. by apply shr_1_even.
    + rewrite Pos2Z.inj_succ, Z.pow_succ_r by lia. ring.
Qed.

Lemma shr_exact (m e n : Z) :
  0 <= n -> 0 < m ->
  shr (Build_shr_record (m * 2 ^ n) false false) e n =
    (Build_shr_record m false false, e + n).
Proof.
  intros Hn Hm. destruct n as [|q|q]; try lia.
  - simpl. rewrite Z.mul_1_r, Z.add_0_r. reflexivity.
  - unfold shr. rewrite iter_pos_iter, iter_shr_1_exact by assumption. reflexivity.
Qed.

Lemma fexp_small (d : Z) : 1 <= d -> fexp 53 1024 d = d - 53.
Proof. intros H. unfold fexp, emin. lia. Qed.

Lemma canon_mantissa_pos (P : positive) :
  Zpos P < 2 ^ 53 -> 0 < Zpos P * 2 ^ (53 - Zpos (digits2_pos P)).
Proof.
  intros H. pose proof (digits2_pos_le_53 P H).
  apply Z.mul_pos_pos; [lia|]. apply Z.pow_pos_nonneg; lia.
Qed.

Lemma round_aux_exact (s : bool) (M P : positive) (K : Z) :
  Zpos M = Zpos P * 2 ^ K ->
  Zpos P < 2 ^ 53 ->
  53 - Zpos (digits2_pos P) <= K ->
  binary_round_aux 53 1024 s (Zpos M) (- K) loc_Exact = canon s P.
Proof.
  intros HM HP HK.
  pose proof (digits2_pos_le_53 P HP) as Hd.
  pose proof (canon_mantissa_pos P HP) as Hpos.
  unfold canon.
  set (d := Zpos (digits2_pos P)) in *.
  assert (HK0 : 0 <= K) by lia.
  assert (HdM : Zpos (digits2_pos M) = d + K) by (apply digits_shifted; assumption).
  destruct (Zpos P * 2 ^ (53 - d)) as [|P'|P'] eqn:HP'; try lia.
  assert (HM' : Zpos M = Zpos P' * 2 ^ (d - 53 + K)).
  { rewrite <- HP', HM, <- Z.mul_assoc, <- Z.pow_add_r by lia.
    do 2 f_equal. lia. }
  assert (HdM' : Zpos (digits2_pos P') = 53).
  { rewrite (digits_shifted P' P (53 - d)); [fold d; lia|lia|].
    symmetry. exact HP'. }
  unfold binary_round_aux.
  assert (H1 : shr_fexp 53 1024 (Zpos M) (- K) loc_Exact =
               (Build_shr_record (Zpos P') false false, d - 53)).
  { unfold shr_fexp. cbn [Zdigits2 shr_record_of_loc]. rewrite HdM.
    replace (d + K + - K) with d by lia. rewrite fexp_small by (unfold d; lia).
    rewrite HM'. replace (d - 53 - - K) with (d - 53 + K) by lia.
    rewrite shr_exact by lia. f_equal. lia. }
  rewrite H1. cbn [shr_m loc_of_shr_record round_nearest_even].
  assert (H2 : shr_fexp 53 1024 (Zpos P') (d - 53) loc_Exact =
               (Build_shr_record (Zpos P') false false, d - 53)).
  { unfold shr_fexp. cbn [Zdigits2 shr_record_of_loc]. rewrite HdM'.
    replace (53 + (d - 53)) with d by lia. rewrite fexp_small by (unfold d; lia).
    rewrite Z.sub_diag. reflexivity. }
  rewrite H2. cbn [shr_m].
  replace (d - 53 <=? 1024 - 53) with true by (symmetry; apply Z.leb_le; lia).
  reflexivity.
Qed.

Lemma shl_align_value (m : positive) (e e' : Z) :
  e' <= e ->
  Zpos (fst (shl_align m e e')) = Zpos m * 2 ^ (e - e')
  /\ snd (shl_align m e e') = e'.
Proof.
  intros Hle. unfold shl_align.
  destruct (e' - e) as [|q|q] eqn:Hq; try lia.
  - cbn [fst snd]. replace (e - e') with 0 by lia. split; [change (2 ^ 0) with 1; lia|lia].
  - cbn [fst snd]. split; [|reflexivity].
    replace (e - e') with (Zpos q) by lia.
    change 2 with (Zpos 2). rewrite <- Pos2Z.inj_pow. clear.
    induction q as [|q IH] using Pos.peano_ind.
    + simpl. lia.
    + rewrite Pos.iter_succ. rewrite Pos2Z.inj_xO, IH.
      rewrite Pos.pow_succ_r, Pos2Z.inj_mul. lia.
Qed.

Lemma round_exact (s : bool) (M P : positive) (K : Z) :
  0 <= K ->
  Zpos M = Zpos P * 2 ^ K ->
  Zpos P < 2 ^ 53 ->
  binary_round 53 1024 s M (- K) = canon s P.
Proof.
  intros HK HM HP.
  pose proof (digits2_pos_le_53 P HP) as Hd.
  unfold binary_round.
  rewrite (digits_shifted M P K HK HM).
  replace (Zpos (digits2_pos P) + K + - K) with (Zpos (digits2_pos P)) by lia.
  rewrite fexp_small by lia.
  set (d := Zpos (digits2_pos P)) in *.
  destruct (Z_le_gt_dec (d - 53) (- K)) as [Hcase|Hcase].
  - destruct (shl_align_value M (- K) (d - 53) Hcase) as [Hm He].
    destruct (shl_align M (- K) (d - 53)) as [mz ez]. cbn [fst snd] in Hm, He. subst ez.
    replace (d - 53) with (- (53 - d)) by lia.
    apply round_aux_exact; [|assumption|fold d; lia].
    rewrite Hm, HM, <- Z.mul_assoc, <- Z.pow_add_r by lia. do 2 f_equal. lia.
  - unfold shl_align. destruct (d - 53 - - K) as [|q|q] eqn:Hq; try lia.
    apply round_aux_exact; [assumption|assumption|fold d; lia].
Qed.

Lemma of_Z_pos (p : positive) : Zpos p < 2 ^ 53 -> of_Z (Zpos p) = canon false p.
Proof.
  intros H. unfold of_Z, binary_normalize.
  apply (round_exact false p p 0); [lia|lia|assumption].
Qed.

Lemma of_Z_neg (p : positive) : Zpos p < 2 ^ 53 -> of_Z (Zneg p) = canon true p.
Proof.
  intros H. unfold of_Z, binary_normalize.
  apply (round_exact true p p 0); [lia|lia|assumption].
Qed.

(** The number of a safe integer: zero, or the canonical form of its
    magnitude with its sign. *)
Lemma of_Z_safe (z : Z) :
  safe z ->
  z = 0 /\ of_Z z = S754_zero false
  \/ exists s p, z = cond_Zopp s (Zpos p) /\ Zpos p < 2 ^ 53 /\ of_Z z = canon s p.
Proof.
  unfold safe. intros H. destruct z as [|p|p].
  - left. split; reflexivity.
  - right. exists false, p. repeat split; [lia|apply of_Z_pos; lia].
  - right. exists true, p. repeat split; [lia|apply of_Z_neg; lia].
Qed.

Lemma normalize_exact (m z K : Z) :
  0 <= K -> m = z * 2 ^ K -> safe z ->
  binary_normalize 53 1024 m (- K) false = of_Z z.
Proof.
  intros HK Hm Hz. unfold safe in Hz.
  assert (Hp : 0 < 2 ^ K) by (apply Z.pow_pos_nonneg; lia).
  destruct z as [|p|p].
  - subst m. reflexivity.
  - rewrite of_Z_pos by lia. destruct m as [|q|q]; try nia.
    simpl. apply round_exact; [assumption|assumption|lia].
  - rewrite of_Z_neg by lia. destruct m as [|q|q]; try nia.
    simpl. apply round_exact; [assumption| |lia].
    change (Zneg q) with (- Zpos q) in Hm. change (Zneg p) with (- Zpos p) in Hm. nia.
Qed.

Lemma canon_value (s : bool) (p : positive) :
  Zpos p < 2 ^ 53 ->
  exists m e, canon s p = S754_finite s m e /\ e <= 0 /\ Zpos m = Zpos p * 2 ^ (- e)
              /\ e = Zpos (digits2_pos p) - 53.
Proof.
  intros H. pose proof (digits2_pos_le_53 p H). pose proof (canon_mantissa_pos p H).
  eexists _, _. split; [reflexivity|]. split; [lia|]. split; [|reflexivity].
  rewrite Z2Pos.id by assumption. do 2 f_equal. lia.
Qed.

(** Sums of safe integers are exact as long as they are safe. *)
Lemma add64_exact (a b : Z) :
  safe a -> safe b -> safe (a + b) ->
  add64 (of_Z a) (of_Z b) = of_Z (a + b).
Proof.
  intros Ha Hb Hab.
  destruct (of_Z_safe a Ha) as [[-> Ea]|(sa & pa & -> & Hpa & Ea)];
  destruct (of_Z_safe b Hb) as [[-> Eb]|(sb & pb & -> & Hpb & Eb)].
  - reflexivity.
  - rewrite Ea, Z.add_0_l, Eb. reflexivity.
  - rewrite Eb, Z.add_0_r, Ea. reflexivity.
  - rewrite Ea, Eb.
    destruct (canon_value sa pa Hpa) as (ma & ea & -> & Hea & Hma & _).
    destruct (canon_value sb pb Hpb) as (mb & eb & -> & Heb & Hmb & _).
    unfold add64, SFadd.
    destruct (shl_align_value ma ea (Z.min ea eb)) as [HA _]; [lia|].
    destruct (shl_align_value mb eb (Z.min ea eb)) as [HB _]; [lia|].
    set (ez := Z.min ea eb) in *.
    replace ez with (- (- ez)) at 3 by lia.
    apply normalize_exact; [lia| |assumption].
    rewrite Z.mul_add_distr_r.
    assert (Hsplit : forall (s : bool) (M P : Z) (e : Z), e <= 0 -> ez <= e ->
               M = P * 2 ^ (- e) * 2 ^ (e - ez) ->
               cond_Zopp s M = cond_Zopp s P * 2 ^ (- ez)).
    { intros s M P e He Hez ->. rewrite <- Z.mul_assoc, <- Z.pow_add_r by lia.
      replace (- e + (e - ez)) with (- ez) by lia. destruct s; simpl; lia. }
    f_equal.
    + apply (Hsplit sa _ (Zpos pa) ea); [lia|lia|]. rewrite HA, Hma. reflexivity.
    + apply (Hsplit sb _ (Zpos pb) eb); [lia|lia|]. rewrite HB, Hmb. reflexivity.
Qed.

Lemma safe_abs (s : bool) (p : positive) :
  safe (cond_Zopp s (Zpos p)) <-> Zpos p < 2 ^ 53.
Proof. unfold safe. destruct s; simpl; lia. Qed.

Lemma cond_Zopp_mul (sa sb : bool) (a b : Z) :
  cond_Zopp sa a * cond_Zopp sb b = cond_Zopp (xorb sa sb) (a * b).
Proof. destruct sa, sb; simpl; lia. Qed.

Lemma of_Z_cond (s : bool) (p : positive) :
  Zpos p < 2 ^ 53 -> of_Z (cond_Zopp s (Zpos p)) = canon s p.
Proof. intros H. destruct s; [apply of_Z_neg|apply of_Z_pos]; assumption. Qed.

(** Products of non-zero safe integers are exact as long as they
    are safe. *)
Lemma mul64_exact (a b : Z) :
  safe a -> safe b -> safe (a * b) -> a <> 0 -> b <> 0 ->
  mul64 (of_Z a) (of_Z b) = of_Z (a * b).
Proof.
  intros Ha Hb Hab Hna Hnb.
  destruct (of_Z_safe a Ha) as [[-> Ea]|(sa & pa & -> & Hpa & Ea)]; [lia|].
  destruct (of_Z_safe b Hb) as [[-> Eb]|(sb & pb & -> & Hpb & Eb)]; [lia|].
  rewrite Ea, Eb, cond_Zopp_mul. rewrite cond_Zopp_mul in Hab.
  change (Zpos pa * Zpos pb) with (Zpos (pa * pb)) in *.
  apply safe_abs in Hab. rewrite of_Z_cond by assumption.
  destruct (canon_value sa pa Hpa) as (ma & ea & -> & Hea & Hma & Hda).
  destruct (canon_value sb pb Hpb) as (mb & eb & -> & Heb & Hmb & Hdb).
  unfold mul64, SFmul.
  replace (ea + eb) with (- (- ea + - eb)) by lia.
  apply round_aux_exact; [|assumption|].
  - rewrite !Pos2Z.inj_mul, Hma, Hmb, Z.pow_add_r by lia. ring.
  - assert (Zpos (digits2_pos pa) <= Zpos (digits2_pos (pa * pb))).
    { rewrite !digits2_pos_log2. apply Z.add_le_mono_r, Z.log2_le_mono. nia. }
    pose proof (digits2_pos_le_53 pb Hpb). lia.
Qed.





Lemma int_value_of_Z (z : Z) : safe z -> int_value (of_Z z) = Some z.
Proof.
  intros Hz.
  destruct (of_Z_safe z Hz) as [[-> E]|(s & p & -> & Hp & E)]; [reflexivity|].
  rewrite E. destruct (canon_value s p Hp) as (m & e & -> & He & Hm & _).
  unfold int_value.
  destruct (Z.leb_spec 0 e) as [H0|H0].
  - assert (e = 0) by lia. subst e. rewrite Hm. simpl. do 2 f_equal. lia.
  - assert (Hpos : 0 < 2 ^ (- e)) by (apply Z.pow_pos_nonneg; lia).
    rewrite Hm, Z.mod_mul, Z.eqb_refl, Z.div_mul by lia. reflexivity.
Qed.

(** ** getPolynom *)

Lemma reduce_from_polynomial64 (n : nat) (x : spec_float) (cs : list spec_float) :
  forall index acc,
  (index + length cs = n)%nat ->
  reduce_from (fun sum coeff index =>
                 add64 sum (mul64 coeff (exponentiate x (n - index - 1)%nat)))
              index acc cs
  = polynomial64 acc cs x.
Proof.
  induction cs as [|c cs IH]; intros index acc Hn; [reflexivity|].
  cbn [reduce_from polynomial64]. simpl in Hn.
  replace (n - index - 1)%nat with (length cs) by lia.
  apply IH. lia.
Qed.


(** The function returned for a non-empty coefficient list, and its
    value. *)
Lemma getPolynom_cons (c : spec_float) (cs : list spec_float) :
  exists pol,
    getPolynom (c :: cs) = Some pol
    /\ forall x, pol x = polynomial64 (S754_zero false) (c :: cs) x.
Proof.
  exists (fun x =>
    reduce (fun sum coeff index =>
              let power := (length (c :: cs) - index - 1)%nat in
              add64 sum (mul64 coeff (exponentiate x power)))
           (S754_zero false) (c :: cs)).
  split; [reflexivity|].
  intros x. unfold reduce. cbv zeta.
  by rewrite (reduce_from_polynomial64 (length (c :: cs)) x (c :: cs) 0
                (S754_zero false)).
Qed.




(** The examples of the documentation, and two inputs on which binary64
    shows: a square that is rounded, and [0 * Infinity]. *)
Example getPolynom_examples :
  option_map (fun pol => int_value (pol (of_Z 10))) (getPolynom (map of_Z [2; 3; 5]))
    = Some (Some 235)
  /\ option_map (fun pol => int_value (pol (of_Z 10))) (getPolynom (map of_Z [1; -3]))
    = Some (Some 7)
  /\ option_map (fun pol => int_value (pol (of_Z 10))) (getPolynom (map of_Z [8]))
    = Some (Some 8)
  /\ option_map (fun pol => int_value (pol (of_Z 100000001)))
       (getPolynom (map of_Z [1; -100000000; 0]))
    = Some (Some 100000000)
  /\ option_map (fun pol => pol (exponentiate (of_Z 2) 600))
       (getPolynom (map of_Z [0; 0; 1]))
    = Some S754_nan.
Proof. repeat split; vm_compute; reflexivity. Qed.

(** ** getIdGeneratorFunction *)

Lemma calls_before_0 g sched : calls_before g 0 sched = 0%nat.
Proof. reflexivity. Qed.

Lemma calls_before_S g h i sched :
  calls_before g (S i) (h :: sched) =
    ((if decide (h = g) then 1 else 0) + calls_before g i sched)%nat.
Proof.
  unfold calls_before. simpl take. rewrite filter_cons.
  by destruct (decide (h = g)).
Qed.

Lemma calls_before_replicate g n k :
  (n <= k)%nat -> calls_before g n (replicate k g) = n.
Proof.
  revert k. induction n as [|n IH]; intros k Hk; [reflexivity|].
  destruct k as [|k]; [lia|]. simpl replicate.
  rewrite calls_before_S, decide_True by done. rewrite IH by lia. reflexivity.
Qed.

Lemma add_ones_S (n : nat) (v : spec_float) :
  add_ones n (add64 v (of_Z 1)) = add_ones (S n) v.
Proof. unfold add_ones. by rewrite Nat.iter_succ_r. Qed.

(** Adding one is exact on the safe integers. *)
Lemma add_ones_exact (z : Z) (n : nat) :
  - 2 ^ 53 < z -> z + Z.of_nat n < 2 ^ 53 ->
  add_ones n (of_Z z) = of_Z (z + Z.of_nat n).
Proof.
  intros Hlo. induction n as [|n IH]; intros Hhi.
  - simpl. by rewrite Z.add_0_r.
  - change (add_ones (S n) (of_Z z)) with (add64 (add_ones n (of_Z z)) (of_Z 1)).
    rewrite IH by lia.
    rewrite add64_exact by (unfold safe; lia). f_equal. lia.
Qed.

(** A call of a generator returns the content of its variable and adds
    one to it; the variables of the other generators keep their content. *)
Lemma generator_step (g : nat) (store : gmap nat spec_float) (current : spec_float) :
  store !! g = Some current ->
  generator g store = (Returns current, <[g := add64 current (of_Z 1)]> store).
Proof. intros H. unfold generator. by rewrite H. Qed.

Lemma generator_frame (g h : nat) (store : gmap nat spec_float) (current : spec_float) :
  h <> g ->
  store !! g = Some current ->
  snd (generator h store) !! g = Some current.
Proof.
  intros Hne Hg. unfold generator.
  destruct (store !! h) as [x|]; simpl; [|done].
  by rewrite lookup_insert_ne.
Qed.

(** In any schedule, a call to an existing generator returns the initial
    content of its variable after one [value += 1] for each earlier call
    to that same generator. *)
Lemma run_schedule_lookup (sched : list nat) :
  forall (store : gmap nat spec_float) i g current,
  sched !! i = Some g ->
  store !! g = Some current ->
  fst (run_schedule sched store) !! i =
    Some (Returns (add_ones (calls_before g i sched) current)).
Proof.
  induction sched as [|h rest IH]; intros store i g current Hi Hg; [done|].
  simpl run_schedule.
  destruct (generator h store) as [r store1] eqn:Hgen.
  destruct (run_schedule rest store1) as [rs store2] eqn:Hrun.
  destruct i as [|i].
  - simpl in Hi. injection Hi as ->.
    rewrite (generator_step g store current Hg) in Hgen. injection Hgen as <- <-.
    reflexivity.
  - simpl in Hi. cbn [fst]. rewrite calls_before_S.
    pose proof (IH store1 i g) as IH'. rewrite Hrun in IH'. cbn [fst] in IH'.
    change ((r :: rs) !! S i) with (rs !! i).
    destruct (decide (h = g)) as [->|Hne].
    + rewrite (generator_step g store current Hg) in Hgen. injection Hgen as <- <-.
      rewrite (IH' (add64 current (of_Z 1))) by (by rewrite ?lookup_insert_eq).
      by rewrite add_ones_S.
    + rewrite (IH' current); [reflexivity|done|].
      pose proof (generator_frame g h store current Hne Hg) as Hfr.
      by rewrite Hgen in Hfr.
Qed.

(** C8, as the code has it.  Let [g1] be the generator built for [s1]
    and [g2] the one built afterwards for [s2].  They are different
    generators.  Called alone, the [k]-th call of [g1] returns [s1] after
    [k - 1] executions of [value += 1] in binary64 (so the first returns
    [s1]).  In any interleaving of calls, each call of [g1] returns [s1]
    after one such addition per earlier call of [g1], and each call of
    [g2] returns [s2] after one per earlier call of [g2]: the calls of
    one do not count for the other.  For an integer [z] above [-2^53],
    [n] additions give [z + n] as long as [z + n] is below [2^53]. *)
Theorem id_generators_increment_independently
  (store store1 store2 : gmap nat spec_float) (s1 s2 : spec_float) (g1 g2 : nat) :
  getIdGeneratorFunction s1 store = (Returns g1, store1) ->
  getIdGeneratorFunction s2 store1 = (Returns g2, store2) ->
  g1 <> g2
  /\ (forall k : nat, (1 <= k)%nat ->
        fst (run_schedule (replicate k g1) store1) !! (k - 1)%nat =
          Some (Returns (add_ones (k - 1) s1)))
  /\ (forall sched i, sched !! i = Some g1 ->
        fst (run_schedule sched store2) !! i =
          Some (Returns (add_ones (calls_before g1 i sched) s1)))
  /\ (forall sched i, sched !! i = Some g2 ->
        fst (run_schedule sched store2) !! i =
          Some (Returns (add_ones (calls_before g2 i sched) s2)))
  /\ (forall (z : Z) (n : nat),
        - 2 ^ 53 < z -> z + Z.of_nat n < 2 ^ 53 ->
        add_ones n (of_Z z) = of_Z (z + Z.of_nat n)).
Proof.
  unfold getIdGeneratorFunction. intros [= <- <-] [= <- <-].
  set (g1 := fresh (dom store)).
  set (store1 := <[g1 := s1]> store).
  set (g2 := fresh (dom store1)).
  assert (Hne : g1 <> g2).
  { intros Heq. apply (is_fresh (dom store1)). fold g2. rewrite <- Heq.
    apply elem_of_dom. exists s1. apply lookup_insert_eq. }
  assert (H1 : store1 !! g1 = Some s1) by apply lookup_insert_eq.
  split; [exact Hne|]. split; [|split; [|split]].
  - intros k Hk.
    rewrite (run_schedule_lookup (replicate k g1) store1 (k - 1) g1 s1).
    + by rewrite calls_before_replicate by lia.
    + apply lookup_replicate_2. lia.
    + exact H1.
  - intros sched i Hi. apply run_schedule_lookup; [exact Hi|].
    rewrite lookup_insert_ne by (intros Heq; by apply Hne). exact H1.
  - intros sched i Hi. apply run_schedule_lookup; [exact Hi|].
    apply lookup_insert_eq.
  - intros z n. apply add_ones_exact.
Qed.

Lemma id_generators_increment_independently_witness :
  fst (run_schedule [0; 1; 0; 0; 0; 1]%nat
         (<[1%nat := of_Z 10]> (<[0%nat := of_Z 4]> ∅))) !! 4%nat =
    Some (Returns (add_ones (calls_before 0 4 [0; 1; 0; 0; 0; 1]%nat) (of_Z 4)))
  /\ fst (run_schedule [0; 1; 0; 0; 0; 1]%nat
            (<[1%nat := of_Z 10]> (<[0%nat := of_Z 4]> ∅))) !! 5%nat =
    Some (Returns (add_ones (calls_before 1 5 [0; 1; 0; 0; 0; 1]%nat) (of_Z 10)))
  /\ add_ones 3 (of_Z 4) = of_Z (4 + Z.of_nat 3).
Proof.
  pose proof (id_generators_increment_independently ∅ (<[0%nat := of_Z 4]> ∅)
                (<[1%nat := of_Z 10]> (<[0%nat := of_Z 4]> ∅))
                (of_Z 4) (of_Z 10) 0%nat 1%nat eq_refl eq_refl)
    as (_ & _ & H1 & H2 & H3).
  split; [|split].
  - exact (H1 [0; 1; 0; 0; 0; 1]%nat 4%nat eq_refl).
  - exact (H2 [0; 1; 0; 0; 0; 1]%nat 5%nat eq_refl).
  - apply H3; lia.
Defined.

(** The counter stops at [2^53]: the generator built for [2^53] returns
    [2^53] on its second call as on its first, not [2^53 + 1]. *)
Lemma id_generator_stalls_at_2_53 :
  exists g store r,
    getIdGeneratorFunction (of_Z (2 ^ 53)) ∅ = (Returns g, store)
    /\ int_value (of_Z (2 ^ 53)) = Some (2 ^ 53)
    /\ fst (run_schedule [g; g] store) !! 1%nat = Some (Returns r)
    /\ int_value r = Some (2 ^ 53)
    /\ int_value r <> Some (2 ^ 53 + 2 - 1).
Proof.
  eexists _, _, _. split; [reflexivity|].
  split; [vm_compute; reflexivity|].
  split; [vm_compute; reflexivity|].
  split; [vm_compute; reflexivity|].
  vm_compute. discriminate.
Qed.

(** The interleaving of the example in the documentation:
    [getId4(), getId10(), getId4(), getId4(), getId4(), getId10()]. *)
Example id_generators_4_and_10 :
  let run :=
    (let! getId4 := getIdGeneratorFunction (of_Z 4) in
     let! getId10 := getIdGeneratorFunction (of_Z 10) in
     fun store =>
       (Returns (fst (run_schedule [getId4; getId10; getId4; getId4; getId4; getId10] store)),
        store)) in
  fst (run ∅) = Returns (map (fun z => Returns (of_Z z)) [4; 10; 5; 6; 7; 11]).
Proof. vm_compute. reflexivity. Qed.

(** * Further properties *)

(** ** getPolynom *)

Lemma polynomial64_nan (cs : list spec_float) (x : spec_float) :
  polynomial64 S754_nan cs x = S754_nan.
Proof. induction cs as [|c cs IH]; [reflexivity|exact IH]. Qed.

(** X24. A single coefficient gives a constant function: for a safe
    integer [c], [getPolynom(c)] returns [c] at every argument, [NaN]
    and the infinities included, because [x ** 0] is [1] for every [x].
    With two coefficients or more, the value at [NaN] is [NaN]. *)
Theorem getPolynom_constant_and_nan :
  (forall c : Z, safe c ->
     exists pol, getPolynom [of_Z c] = Some pol /\ forall x, pol x = of_Z c)
  /\ (forall c0 c1 cs,
        exists pol, getPolynom (c0 :: c1 :: cs) = Some pol /\ pol S754_nan = S754_nan).
Proof.
  split.
  - intros c Hc.
    destruct (getPolynom_cons (of_Z c) []) as (pol & Hpol & Hval).
    exists pol. split; [exact Hpol|]. intros x. rewrite Hval.
    cbn [polynomial64 length exponentiate].
    destruct (Z.eq_dec c 0) as [->|Hnz]; [reflexivity|].
    rewrite mul64_exact by (unfold safe in *; lia).
    rewrite Z.mul_1_r. change (S754_zero false) with (of_Z 0).
    by rewrite add64_exact by (unfold safe in *; lia).
  - intros c0 c1 cs.
    destruct (getPolynom_cons c0 (c1 :: cs)) as (pol & Hpol & Hval).
    exists pol. split; [exact Hpol|]. rewrite Hval.
    cbn [polynomial64 length exponentiate].
    replace (mul64 c0 S754_nan) with S754_nan by (by destruct c0).
    apply polynomial64_nan.
Qed.

(** ** memoize *)

Section MemoizeMore.
Context {W : Type}.
Implicit Types (func : JSFun W) (m : Machine MemoCell W) (args : list Val).

(** X7. One invocation of the memoized wrapper makes no call when the
    flag is set and exactly one call of [func] when it is not; that call
    never receives the arguments given to the wrapper; and the world
    changes as that call changes it, or not at all. *)
Theorem memoize_calls_func_without_arguments func args m :
  trace (snd (call (memoize func) args m)) =
    trace m ++ (if isCached (locals m) then [] else [Called CFunc []])
  /\ world (snd (call (memoize func) args m)) =
     (if isCached (locals m) then world m else snd (fn_call func [] (world m))).
Proof.
  destruct (isCached (locals m)) eqn:Hc.
  - rewrite memoize_hit by done. simpl. by rewrite app_nil_r.
  - destruct (fn_call func [] (world m)) as [[v|e] w1] eqn:Hf.
    + by rewrite (memoize_miss_returns func args m v w1 Hc Hf).
    + by rewrite (memoize_miss_throws func args m e w1 Hc Hf).
Qed.

Lemma memoize_uncached_run func argss : forall m,
  uncached (locals m) ->
  isCached (locals (snd (invocations (memoize func) argss m))) = false ->
  uncached (locals (snd (invocations (memoize func) argss m)))
  /\ Forall (fun r => exists e, r = Throws e) (fst (invocations (memoize func) argss m))
  /\ trace (snd (invocations (memoize func) argss m)) =
     trace m ++ repeat (Called CFunc []) (length argss).
Proof.
  induction argss as [|args rest IH]; intros m [Hc Hv].
  - simpl. intros _. rewrite app_nil_r. by repeat split.
  - rewrite invocations_cons.
    destruct (fn_call func [] (world m)) as [[v|e] w1] eqn:Hf.
    + rewrite (memoize_miss_returns func args m v w1 Hc Hf).
      rewrite memoize_hits by reflexivity. simpl. discriminate.
    + rewrite (memoize_miss_throws func args m e w1 Hc Hf).
      set (m1 := {| locals := locals m; world := w1;
                    trace := trace m ++ [Called CFunc []] |}).
      specialize (IH m1 (conj Hc Hv)).
      destruct (invocations (memoize func) rest m1) as [rs m2]. simpl in *.
      intros Hend. destruct (IH Hend) as (Hun & Hall & Htr).
      split; [exact Hun|]. split; [constructor; eauto|].
      rewrite Htr. unfold m1. simpl. by rewrite <- app_assoc.
Qed.

(** X8. As long as the flag of a memoized wrapper is unset, nothing has
    been stored: if after any number of invocations of a new wrapper the
    flag is still unset, then [cachedResult] is still [undefined], every
    one of these invocations threw, and each of them called [func]. *)
Theorem memoize_unset_flag_means_every_call_threw func (w0 : W) argss :
  isCached (locals (snd (invocations (memoize func) argss (boot (memoize func) w0)))) = false ->
  cachedResult (locals (snd (invocations (memoize func) argss (boot (memoize func) w0))))
    = VUndefined
  /\ Forall (fun r => exists e, r = Throws e)
       (fst (invocations (memoize func) argss (boot (memoize func) w0)))
  /\ trace (snd (invocations (memoize func) argss (boot (memoize func) w0))) =
     repeat (Called CFunc []) (length argss).
Proof.
  intros Hend.
  destruct (memoize_uncached_run func argss (boot (memoize func) w0)) as ([_ Hv] & Hall & Htr);
    [by split|exact Hend|].
  by repeat split.
Qed.

Lemma memoize_run_until_success func errs : forall argss m w1 v w2 args rest,
  isCached (locals m) = false ->
  length argss = length errs ->
  call_n func (length errs) (world m) = (map Throws errs, w1) ->
  fn_call func [] w1 = (Returns v, w2) ->
  invocations (memoize func) (argss ++ args :: rest) m =
    (map Throws errs ++ repeat (Returns v) (S (length rest)),
     {| locals := {| cachedResult := v; isCached := true |};
        world := w2;
        trace := trace m ++ repeat (Called CFunc []) (S (length errs)) |}).
Proof.
  induction errs as [|e errs IH]; intros argss m w1 v w2 args rest Hc Hlen Hn Hf.
  - destruct argss; [|discriminate]. simpl in Hn. injection Hn as <-.
    simpl app. rewrite invocations_cons.
    rewrite (memoize_miss_returns func args m v w2 Hc Hf).
    rewrite memoize_hits by reflexivity. reflexivity.
  - destruct argss as [|a argss]; [discriminate|].
    apply call_n_throws_inv in Hn as (w' & He & Hn).
    simpl app. rewrite invocations_cons.
    rewrite (memoize_miss_throws func a m e w' Hc He).
    rewrite (IH argss _ w1 v w2 args rest) by (simpl in *; eauto; lia).
    simpl. by rewrite <- app_assoc.
Qed.

(** X9. The wrapper stores the first result that [func] returns, not the
    result of its first call: if the first calls of [func] throw [errs]
    and the next one returns [v], the invocations of a new wrapper throw
    these errors one after the other, then return [v] for ever, and
    [func] has been called once more than it threw. *)
Theorem memoize_caches_first_success func (w0 w1 w2 : W) errs v argss args rest :
  length argss = length errs ->
  call_n func (length errs) w0 = (map Throws errs, w1) ->
  fn_call func [] w1 = (Returns v, w2) ->
  invocations (memoize func) (argss ++ args :: rest) (boot (memoize func) w0) =
    (map Throws errs ++ repeat (Returns v) (S (length rest)),
     {| locals := {| cachedResult := v; isCached := true |};
        world := w2;
        trace := repeat (Called CFunc []) (S (length errs)) |}).
Proof.
  intros Hlen Hn Hf.
  by rewrite (memoize_run_until_success func errs argss (boot (memoize func) w0)
                w1 v w2 args rest eq_refl Hlen Hn Hf).
Qed.
End MemoizeMore.

Lemma memoize_unset_flag_means_every_call_threw_witness :
  cachedResult (locals (snd (invocations (memoize hopeless) [[]; []; []]
                               (boot (memoize hopeless) 0%nat)))) = VUndefined
  /\ Forall (fun r => exists e, r = Throws e)
       (fst (invocations (memoize hopeless) [[]; []; []] (boot (memoize hopeless) 0%nat)))
  /\ trace (snd (invocations (memoize hopeless) [[]; []; []]
                   (boot (memoize hopeless) 0%nat))) =
     repeat (Called CFunc []) 3.
Proof.
  exact (@memoize_unset_flag_means_every_call_threw nat hopeless 0%nat [[]; []; []] eq_refl).
Defined.

Lemma memoize_caches_first_success_witness :
  invocations (memoize flaky) ([[]] ++ [] :: [[]; []]) (boot (memoize flaky) 0%nat) =
    ([Throws (VStr "test"); Returns (VNum 2); Returns (VNum 2); Returns (VNum 2)],
     {| locals := {| cachedResult := VNum 2; isCached := true |};
        world := 2%nat; trace := [Called CFunc []; Called CFunc []] |}).
Proof.
  exact (@memoize_caches_first_success nat flaky 0%nat 1%nat 2%nat [VStr "test"] (VNum 2)
           [[]] [] [[]; []] eq_refl eq_refl eq_refl).
Defined.

(** ** retry *)

Section RetryMore.
Context {W : Type}.
Implicit Types (func : JSFun W) (m : Machine unit W) (attempts i : Z).

(** While an iteration is left, the content of [lastError] does not
    matter: it is overwritten before it is thrown. *)
Lemma retry_loop_forgets_lastError func attempts i e1 e2 m :
  i < attempts ->
  retry_loop func attempts i e1 m = retry_loop func attempts i e2 m.
Proof. intros Hlt. by rewrite !retry_loop_body. Qed.

(** Only the number of iterations left matters, not where the counter
    stands. *)
Lemma retry_loop_shift func (k : nat) : forall attempts i d lastError m,
  Z.to_nat (attempts - i) = k ->
  retry_loop func (attempts + d) (i + d) lastError m =
  retry_loop func attempts i lastError m.
Proof.
  induction k as [|k IH]; intros attempts i d lastError m Hk.
  - by rewrite !retry_loop_exit by lia.
  - rewrite (retry_loop_body func attempts i) by lia.
    rewrite (retry_loop_body func (attempts + d)) by lia.
    destruct (invoke CFunc func [] m) as [[v|e] m']; [reflexivity|].
    replace (i + d + 1) with (i + 1 + d) by lia.
    apply IH. lia.
Qed.

Lemma retry_loop_more_attempts func (k : nat) : forall attempts attempts' i lastError m v m',
  Z.to_nat (attempts - i) = k ->
  attempts <= attempts' ->
  retry_loop func attempts i lastError m = (Returns v, m') ->
  retry_loop func attempts' i lastError m = (Returns v, m').
Proof.
  induction k as [|k IH]; intros attempts attempts' i lastError m v m' Hk Hle.
  - rewrite retry_loop_exit by lia. discriminate.
  - rewrite (retry_loop_body func attempts i) by lia.
    rewrite (retry_loop_body func attempts' i) by lia.
    destruct (invoke CFunc func [] m) as [[v1|e] m1]; [done|].
    apply IH; lia.
Qed.

Lemma retry_loop_inversion func (k : nat) : forall attempts i lastError w tr,
  Z.to_nat (attempts - i) = k ->
  exists errs w1,
    call_n func (length errs) w = (map Throws errs, w1)
    /\ match retry_loop func attempts i lastError
               {| locals := tt; world := w; trace := tr |} with
       | (Returns v, m') =>
           (length errs < k)%nat
           /\ fn_call func [] w1 = (Returns v, world m')
           /\ trace m' = tr ++ repeat (Called CFunc []) (S (length errs))
       | (Throws e, m') =>
           length errs = k
           /\ world m' = w1
           /\ e = List.last errs lastError
           /\ trace m' = tr ++ repeat (Called CFunc []) (length errs)
       end.
Proof.
  induction k as [|k IH]; intros attempts i lastError w tr Hk.
  - rewrite retry_loop_exit by lia. exists [], w. simpl.
    rewrite app_nil_r. by repeat split.
  - rewrite retry_loop_body by lia. unfold invoke. simpl world.
    destruct (fn_call func [] w) as [[v|e] w'] eqn:Hf.
    + exists [], w. simpl. repeat split; [lia|exact Hf].
    + simpl locals. simpl trace.
      destruct (IH attempts (i + 1) e w' (tr ++ [Called CFunc []]))
        as (errs & w1 & Hn & Hres); [lia|].
      exists (e :: errs), w1.
      split; [simpl; by rewrite Hf, Hn|].
      destruct (retry_loop func attempts (i + 1) e
                  {| locals := tt; world := w'; trace := tr ++ [Called CFunc []] |})
        as [[v|e'] m'].
      * destruct Hres as (Hlt & Hv & Htr).
        repeat split; [simpl; lia|exact Hv|].
        rewrite Htr, <- app_assoc. reflexivity.
      * destruct Hres as (Hk' & Hw & He & Htr).
        repeat split; [simpl; lia|exact Hw| |].
        -- rewrite last_cons_default. exact He.
        -- rewrite Htr, <- app_assoc. reflexivity.
Qed.

(** X10. Every run of the wrapper of [retry func attempts] is of one of
    two kinds.  If it returns [v]: fewer than [attempts] successive calls
    of [func] threw and the next one returned [v].  If it throws [e]:
    exactly [attempts] successive calls threw (none when [attempts] is
    not positive) and [e] is the error of the last one, or [undefined]
    when there was none.  In both cases the world is the one the last
    call left and the calls made are these calls and no other. *)
Theorem retry_run_characterised func attempts args (w : W) tr :
  exists errs w1,
    call_n func (length errs) w = (map Throws errs, w1)
    /\ match call (retry func attempts) args {| locals := tt; world := w; trace := tr |} with
       | (Returns v, m') =>
           Z.of_nat (length errs) < attempts
           /\ fn_call func [] w1 = (Returns v, world m')
           /\ trace m' = tr ++ repeat (Called CFunc []) (S (length errs))
       | (Throws e, m') =>
           Z.of_nat (length errs) = Z.max 0 attempts
           /\ world m' = w1
           /\ e = List.last errs VUndefined
           /\ trace m' = tr ++ repeat (Called CFunc []) (length errs)
       end.
Proof.
  simpl call.
  destruct (retry_loop_inversion func (Z.to_nat (attempts - 0)) attempts 0 VUndefined w tr eq_refl)
    as (errs & w1 & Hn & Hres).
  exists errs, w1. split; [exact Hn|].
  destruct (retry_loop func attempts 0 VUndefined
              {| locals := tt; world := w; trace := tr |}) as [[v|e] m'].
  - destruct Hres as (Hlt & Hv & Htr). repeat split; [lia|exact Hv|exact Htr].
  - destruct Hres as (Hk & Hw & He & Htr). repeat split; [lia|exact Hw|exact He|exact Htr].
Qed.

(** X11. With a single attempt the wrapper does what one call of [func]
    does: same result or same error, same world, that one call in the
    trace. *)
Theorem retry_once_is_one_call func args m :
  call (retry func 1) args m = invoke CFunc func [] m.
Proof.
  simpl call. rewrite retry_loop_body by lia.
  destruct (invoke CFunc func [] m) as [[v|e] m']; [reflexivity|].
  by rewrite retry_loop_exit by lia.
Qed.

(** X12. Allowing more attempts never changes a run that succeeded: if
    the wrapper for [attempts] returns [v], the wrapper for any larger
    number returns [v] too, after the same calls and in the same world. *)
Theorem retry_more_attempts_keep_success func attempts attempts' args m v m' :
  attempts <= attempts' ->
  call (retry func attempts) args m = (Returns v, m') ->
  call (retry func attempts') args m = (Returns v, m').
Proof.
  simpl call. intros Hle Hrun.
  by apply (retry_loop_more_attempts func (Z.to_nat (attempts - 0)) attempts attempts'
              0 VUndefined m v m' eq_refl Hle).
Qed.

(** X13. One attempt more is one call of [func] in front: for
    [attempts >= 1], the wrapper for [attempts + 1] calls [func]; if the
    call returns, that is the result; if it throws, the run goes on as a
    run of the wrapper for [attempts] and the error is forgotten. *)
Theorem retry_unrolls func attempts args m :
  1 <= attempts ->
  call (retry func (attempts + 1)) args m =
    match invoke CFunc func [] m with
    | (Returns v, m') => (Returns v, m')
    | (Throws _, m') => call (retry func attempts) args m'
    end.
Proof.
  simpl call. intros Hge. rewrite retry_loop_body by lia.
  destruct (invoke CFunc func [] m) as [[v|e] m']; [reflexivity|].
  rewrite (retry_loop_shift func (Z.to_nat (attempts - 0)) attempts 0 1 e m' eq_refl).
  apply retry_loop_forgets_lastError. lia.
Qed.
End RetryMore.

Lemma retry_more_attempts_keep_success_witness :
  call (retry flaky 5) [] {| locals := tt; world := 0%nat; trace := [] |} =
    (Returns (VNum 2), {| locals := tt; world := 2%nat;
                          trace := [Called CFunc []; Called CFunc []] |}).
Proof.
  apply (@retry_more_attempts_keep_success nat flaky 2 5 []
           {| locals := tt; world := 0%nat; trace := [] |}); [lia|reflexivity].
Defined.

Lemma retry_unrolls_witness :
  call (retry hopeless (2 + 1)) [] {| locals := tt; world := 0%nat; trace := [] |} =
  call (retry hopeless 2) [] {| locals := tt; world := 1%nat; trace := [Called CFunc []] |}.
Proof.
  apply (@retry_unrolls nat hopeless 2 [] {| locals := tt; world := 0%nat; trace := [] |}).
  lia.
Defined.

(** ** logger *)

Section LoggerMore.
Context {W : Type}.
Variable JSON_stringify : Val -> W -> Outcome (option string) * W.
Implicit Types (func logFunc : JSFun W) (m : Machine unit W) (args : list Val).

(** Serialization goes through the arguments from left to right and
    stops at the first one that throws. *)
Lemma serialize_stops_at_failure pre a post : forall m strs m1 e w2,
  map_eff (stringify JSON_stringify) pre m = (Returns strs, m1) ->
  JSON_stringify a (world m1) = (Throws e, w2) ->
  map_eff (stringify JSON_stringify) (pre ++ a :: post) m =
    (Throws e, {| locals := locals m1; world := w2; trace := trace m1 |}).
Proof.
  induction pre as [|b pre IH]; intros m strs m1 e w2 Hpre Ha.
  - simpl in Hpre. unfold ret in Hpre. injection Hpre as <- <-.
    simpl. unfold bind at 1. unfold stringify at 1. by rewrite Ha.
  - simpl in Hpre. simpl. unfold bind at 1. unfold bind at 1 in Hpre.
    destruct (stringify JSON_stringify b m) as [[s|e0] m0]; [|discriminate].
    unfold bind at 1. unfold bind at 1 in Hpre.
    destruct (map_eff (stringify JSON_stringify) pre m0) as [[ss|e0] m0'] eqn:Hrest;
      [|discriminate].
    unfold ret in Hpre. injection Hpre as <- <-.
    by rewrite (IH m0 ss m0' e w2 Hrest Ha).
Qed.

(** A serializer that neither throws nor changes the world leaves the
    machine as it is. *)
Lemma serialize_pure args : forall m,
  (forall v w, exists s, JSON_stringify v w = (Returns s, w)) ->
  exists strs, map_eff (stringify JSON_stringify) args m = (Returns strs, m).
Proof.
  intros m Hpure. induction args as [|a args [strs IH]].
  - by exists [].
  - destruct (Hpure a (world m)) as [s Hs].
    exists (s :: strs). simpl. unfold bind at 1. unfold stringify at 1.
    rewrite Hs. destruct m as [[] w tr]. simpl in *.
    unfold bind at 1. by rewrite IH.
Qed.

(** X14. An argument that cannot be serialized stops the wrapper before
    anything is logged or called: if [JSON.stringify] throws [e] on an
    argument after the arguments before it have been serialized, the
    wrapper throws [e], the trace is unchanged, and the arguments after
    it are not looked at. *)
Theorem logger_unserializable_argument func logFunc pre a post m strs m1 e w2 :
  map_eff (stringify JSON_stringify) pre m = (Returns strs, m1) ->
  JSON_stringify a (world m1) = (Throws e, w2) ->
  call (logger JSON_stringify func logFunc) (pre ++ a :: post) m =
    (Throws e, {| locals := locals m; world := w2; trace := trace m |}).
Proof.
  intros Hpre Ha.
  destruct (serialize_keeps_trace _ _ _ _ _ Hpre) as [Htr Hloc].
  rewrite logger_call, (serialize_stops_at_failure pre a post m strs m1 e w2 Hpre Ha).
  by rewrite Htr, Hloc.
Qed.

(** X15. A failure of [logFunc] on the [ends] line replaces the result:
    when [func] has returned [v] and [logFunc] then throws [e], the
    wrapper throws [e]; all three calls have been made and the world
    keeps what [func] did. *)
Theorem logger_failure_on_ends_line func logFunc args m strs m1 r1 w2 v w3 e w4 :
  map_eff (stringify JSON_stringify) args m = (Returns strs, m1) ->
  let argsString := join "," strs in
  let starts := VStr (fn_name func +:+ "(" +:+ argsString +:+ ") starts") in
  let ends := VStr (fn_name func +:+ "(" +:+ argsString +:+ ") ends") in
  fn_call logFunc [starts] (world m1) = (Returns r1, w2) ->
  fn_call func args w2 = (Returns v, w3) ->
  fn_call logFunc [ends] w3 = (Throws e, w4) ->
  call (logger JSON_stringify func logFunc) args m =
    (Throws e,
     {| locals := locals m; world := w4;
        trace := trace m ++ [Called CLog [starts]; Called CFunc args;
                             Called CLog [ends]] |}).
Proof.
  intros Hser argsString starts ends H1 H2 H3.
  destruct (serialize_keeps_trace _ _ _ _ _ Hser) as [Htr Hloc].
  rewrite logger_call, Hser. cbv zeta. fold argsString. fold starts. fold ends.
  unfold invoke at 1. rewrite H1.
  unfold invoke at 1. simpl world. rewrite H2.
  unfold invoke at 1. simpl world. rewrite H3.
  simpl. rewrite Htr, Hloc, <- !app_assoc. reflexivity.
Qed.

(** X16. Called without arguments, the wrapper consults no serializer
    and logs [<funcName>() starts] first; what follows in the trace is an
    initial part of: [func] called without arguments, then
    [<funcName>() ends]. *)
Theorem logger_without_arguments func logFunc m :
  exists events,
    trace (snd (call (logger JSON_stringify func logFunc) [] m)) =
      trace m ++ Called CLog [VStr (fn_name func +:+ "() starts")] :: events
    /\ events `prefix_of`
         [Called CFunc []; Called CLog [VStr (fn_name func +:+ "() ends")]].
Proof.
  rewrite logger_call. simpl map_eff. unfold ret at 1. cbv zeta.
  change (fn_name func +:+ "(" +:+ join "," [] +:+ ") starts")
    with (fn_name func +:+ "() starts").
  change (fn_name func +:+ "(" +:+ join "," [] +:+ ") ends")
    with (fn_name func +:+ "() ends").
  unfold invoke at 1.
  destruct (fn_call logFunc _ (world m)) as [[r1|e1] w2].
  - unfold invoke at 1. simpl world.
    destruct (fn_call func [] w2) as [[v|e2] w3].
    + unfold invoke at 1. simpl world.
      destruct (fn_call logFunc _ w3) as [[r2|e3] w4]; simpl;
        eexists; rewrite <- !app_assoc; split; done.
    + simpl. exists [Called CFunc []]. rewrite <- !app_assoc. split; [done|].
      by eexists.
  - simpl. exists []. split; [done|]. apply prefix_nil.
Qed.

(** X17. With a serializer that neither throws nor changes the world and
    a logging function that returns normally and leaves the world of the
    callbacks alone, the wrapper is transparent: it ends as the call
    [func(...args)] ends, with the same result or error and the same
    world. *)
Theorem logger_is_transparent func logFunc args m :
  (forall v w, exists s, JSON_stringify v w = (Returns s, w)) ->
  (forall a w, exists r, fn_call logFunc a w = (Returns r, w)) ->
  fst (call (logger JSON_stringify func logFunc) args m) =
    fst (fn_call func args (world m))
  /\ world (snd (call (logger JSON_stringify func logFunc) args m)) =
     snd (fn_call func args (world m)).
Proof.
  intros Hpure Hquiet.
  destruct (serialize_pure args m Hpure) as [strs Hser].
  rewrite !logger_call, Hser. cbv zeta. unfold invoke.
  destruct (Hquiet [VStr (fn_name func +:+ "(" +:+ join "," strs +:+ ") starts")] (world m))
    as [r1 H1].
  rewrite H1. simpl world.
  destruct (fn_call func args (world m)) as [[v|e] w3]; [|split; reflexivity].
  destruct (Hquiet [VStr (fn_name func +:+ "(" +:+ join "," strs +:+ ") ends")] w3)
    as [r2 H2].
  simpl world. rewrite H2. split; reflexivity.
Qed.
End LoggerMore.

Lemma logger_unserializable_argument_witness :
  call (logger strict_stringify bump collector) ([VNum 5] ++ VRef 0 :: [VNum 7])
       {| locals := tt; world := {| lines := []; box := 1 |}; trace := [] |} =
    (Throws (VStr "TypeError"),
     {| locals := tt; world := {| lines := []; box := 1 |}; trace := [] |}).
Proof.
  apply (@logger_unserializable_argument LogWorld strict_stringify bump collector
           [VNum 5] (VRef 0) [VNum 7]
           {| locals := tt; world := {| lines := []; box := 1 |}; trace := [] |}
           [Some "5"]
           {| locals := tt; world := {| lines := []; box := 1 |}; trace := [] |}
           (VStr "TypeError") {| lines := []; box := 1 |});
    reflexivity.
Defined.

Lemma logger_failure_on_ends_line_witness :
  call (logger demo_stringify bump picky_log) [VNum 5]
       {| locals := tt; world := {| lines := []; box := 1 |}; trace := [] |} =
    (Throws (VStr "log is full"),
     {| locals := tt; world := {| lines := ["bump(5) starts"]; box := 2 |};
        trace := [Called CLog [VStr "bump(5) starts"]; Called CFunc [VNum 5];
                  Called CLog [VStr "bump(5) ends"]] |}).
Proof.
  apply (@logger_failure_on_ends_line LogWorld demo_stringify bump picky_log [VNum 5]
           {| locals := tt; world := {| lines := []; box := 1 |}; trace := [] |}
           [Some "5"]
           {| locals := tt; world := {| lines := []; box := 1 |}; trace := [] |}
           VUndefined {| lines := ["bump(5) starts"]; box := 1 |}
           (VNum 2) {| lines := ["bump(5) starts"]; box := 2 |}
           (VStr "log is full") {| lines := ["bump(5) starts"]; box := 2 |});
    reflexivity.
Defined.

Lemma logger_is_transparent_witness :
  fst (call (logger demo_stringify bump console_log) [VRef 0; VNum 5]
         {| locals := tt; world := {| lines := []; box := 1 |}; trace := [] |}) =
    Returns (VNum 2)
  /\ world (snd (call (logger demo_stringify bump console_log) [VRef 0; VNum 5]
                   {| locals := tt; world := {| lines := []; box := 1 |}; trace := [] |})) =
     {| lines := []; box := 2 |}.
Proof.
  apply (@logger_is_transparent LogWorld demo_stringify bump console_log [VRef 0; VNum 5]
           {| locals := tt; world := {| lines := []; box := 1 |}; trace := [] |}).
  - intros v w. destruct v; eexists; reflexivity.
  - intros a w. eexists. reflexivity.
Defined.

(** ** partialUsingArguments *)

Lemma ar_call {W : Type} (fn : JSFun W) (args1 args2 : list Val) (w : W) :
  fn_call (ar fn args1) args2 w = fn_call fn (args1 ++ args2) w.
Proof.
  unfold ar, stateless_function. simpl. unfold invoke. simpl.
  by destruct (fn_call fn (args1 ++ args2) w).
Qed.

(** X18. Partial application can be repeated: binding [a] and then [b]
    is binding [a ++ b].  Called with [c], the function obtained in two
    steps makes one call, of the function of the first step with
    [b ++ c], and ends as [fn] called with [a ++ b ++ c] ends. *)
Theorem partial_application_nests {W : Type} (fn : JSFun W) (a b c : list Val)
  (m : Machine unit W) :
  call (partialUsingArguments (ar fn a) b) c m =
    (fst (fn_call fn (a ++ b ++ c) (world m)),
     {| locals := locals m;
        world := snd (fn_call fn (a ++ b ++ c) (world m));
        trace := trace m ++ [Called CFunc (b ++ c)] |})
  /\ (forall w, fn_call (ar (ar fn a) b) c w = fn_call (ar fn (a ++ b)) c w).
Proof.
  split.
  - simpl call. unfold invoke. rewrite ar_call.
    by destruct (fn_call fn (a ++ b ++ c) (world m)).
  - intros w. by rewrite !ar_call, <- app_assoc.
Qed.

(** X19. The logger of a partially applied function sees only the
    function [ar]: with [logFunc] returning normally and [fn] returning
    [v] on [args1 ++ args2], the wrapper called with [args2] logs
    [ar(<args2>) starts] and [ar(<args2>) ends], the bound arguments
    [args1] and the name of [fn] appear in neither line, and it returns
    [v]. *)
Theorem logger_of_partial_application {W : Type}
  (JSON_stringify : Val -> W -> Outcome (option string) * W)
  (fn logFunc : JSFun W) (args1 args2 : list Val) (m : Machine unit W)
  strs m1 r1 w2 v w3 r2 w4 :
  map_eff (stringify JSON_stringify) args2 m = (Returns strs, m1) ->
  let starts := VStr ("ar(" +:+ join "," strs +:+ ") starts") in
  let ends := VStr ("ar(" +:+ join "," strs +:+ ") ends") in
  fn_call logFunc [starts] (world m1) = (Returns r1, w2) ->
  fn_call fn (args1 ++ args2) w2 = (Returns v, w3) ->
  fn_call logFunc [ends] w3 = (Returns r2, w4) ->
  call (logger JSON_stringify (ar fn args1) logFunc) args2 m =
    (Returns v,
     {| locals := locals m; world := w4;
        trace := trace m ++ [Called CLog [starts]; Called CFunc args2;
                             Called CLog [ends]] |}).
Proof.
  intros Hser starts ends H1 H2 H3.
  destruct (serialize_keeps_trace _ _ _ _ _ Hser) as [Htr Hloc].
  rewrite logger_call, Hser. cbv zeta.
  change (fn_name (ar fn args1)) with "ar".
  change ("ar" +:+ "(" +:+ join "," strs +:+ ") starts")
    with ("ar(" +:+ join "," strs +:+ ") starts").
  change ("ar" +:+ "(" +:+ join "," strs +:+ ") ends")
    with ("ar(" +:+ join "," strs +:+ ") ends").
  fold starts. fold ends.
  unfold invoke at 1. rewrite H1.
  unfold invoke at 1. simpl world. rewrite ar_call, H2.
  unfold invoke at 1. simpl world. rewrite H3.
  simpl. rewrite Htr, Hloc, <- !app_assoc. reflexivity.
Qed.

Lemma logger_of_partial_application_witness :
  call (logger demo_stringify (ar bump [VRef 0]) collector) [VNum 5; VNum 6]
       {| locals := tt; world := {| lines := []; box := 1 |}; trace := [] |} =
    (Returns (VNum 2),
     {| locals := tt;
        world := {| lines := ["ar(5,6) starts"; "ar(5,6) ends"]; box := 2 |};
        trace := [Called CLog [VStr "ar(5,6) starts"]; Called CFunc [VNum 5; VNum 6];
                  Called CLog [VStr "ar(5,6) ends"]] |}).
Proof.
  apply (@logger_of_partial_application LogWorld demo_stringify bump collector
           [VRef 0] [VNum 5; VNum 6]
           {| locals := tt; world := {| lines := []; box := 1 |}; trace := [] |}
           [Some "5"; Some "6"]
           {| locals := tt; world := {| lines := []; box := 1 |}; trace := [] |}
           VUndefined {| lines := ["ar(5,6) starts"]; box := 1 |}
           (VNum 2) {| lines := ["ar(5,6) starts"]; box := 2 |}
           VUndefined {| lines := ["ar(5,6) starts"; "ar(5,6) ends"]; box := 2 |});
    reflexivity.
Defined.

(** ** getIdGeneratorFunction *)

Lemma calls_before_lt (g i j : nat) (sched : list nat) :
  sched !! i = Some g ->
  (i < j)%nat ->
  (calls_before g i sched < calls_before g j sched)%nat.
Proof.
  intros Hi Hlt. unfold calls_before.
  replace j with (S i + (j - S i))%nat by lia.
  rewrite <- take_take_drop, (take_S_r _ _ _ Hi), !filter_app, !length_app.
  rewrite filter_cons, decide_True by done. simpl. lia.
Qed.

Lemma run_schedule_store (sched : list nat) :
  forall (store : gmap nat spec_float) g current,
  store !! g = Some current ->
  snd (run_schedule sched store) !! g =
    Some (add_ones (calls_before g (length sched) sched) current).
Proof.
  induction sched as [|h rest IH]; intros store g current Hg.
  - simpl. by rewrite Hg.
  - simpl run_schedule. destruct (generator h store) as [r store1] eqn:Hgen.
    pose proof (IH store1 g) as IH'.
    destruct (run_schedule rest store1) as [rs store2]. cbn [snd length] in *.
    rewrite calls_before_S.
    destruct (decide (h = g)) as [->|Hne].
    + rewrite (generator_step g store current Hg) in Hgen. injection Hgen as <- <-.
      rewrite (IH' (add64 current (of_Z 1))) by apply lookup_insert_eq.
      by rewrite add_ones_S.
    + rewrite (IH' current); [reflexivity|].
      pose proof (generator_frame g h store current Hne Hg) as Hfr.
      by rewrite Hgen in Hfr.
Qed.

Lemma run_schedule_new_variable (g : nat) (s : spec_float) (sched : list nat) :
  forall store : gmap nat spec_float,
  store !! g = None ->
  g ∉ sched ->
  run_schedule sched (<[g := s]> store) =
    (fst (run_schedule sched store), <[g := s]> (snd (run_schedule sched store))).
Proof.
  induction sched as [|h rest IH]; intros store Hg Hnot; [reflexivity|].
  apply not_elem_of_cons in Hnot as [Hne Hnot].
  simpl run_schedule. unfold generator.
  rewrite lookup_insert_ne by done.
  destruct (store !! h) as [current|] eqn:Hh.
  - rewrite (insert_insert_ne store h g) by congruence.
    rewrite IH by (rewrite ?lookup_insert_ne by congruence; done).
    by destruct (run_schedule rest (<[h := add64 current (of_Z 1)]> store)).
  - rewrite IH by done. by destruct (run_schedule rest store).
Qed.

(** X20. As long as its counter stays below [2^53], a generator never
    returns the same id twice: for an existing generator whose variable
    holds an integer [z] above [-2^53], in any interleaving with calls of
    other generators, an earlier and a later call of that generator
    return integers [ri < rj], which are different numbers, provided the
    later one is below [2^53]. *)
Theorem id_generator_ids_increase (store : gmap nat spec_float) (sched : list nat)
  (g : nat) (z : Z) (i j : nat) :
  store !! g = Some (of_Z z) ->
  sched !! i = Some g ->
  sched !! j = Some g ->
  (i < j)%nat ->
  - 2 ^ 53 < z ->
  z + Z.of_nat (calls_before g j sched) < 2 ^ 53 ->
  exists ri rj,
    fst (run_schedule sched store) !! i = Some (Returns (of_Z ri))
    /\ fst (run_schedule sched store) !! j = Some (Returns (of_Z rj))
    /\ ri < rj
    /\ of_Z ri <> of_Z rj.
Proof.
  intros Hg Hi Hj Hlt Hlo Hhi.
  pose proof (calls_before_lt g i j sched Hi Hlt) as Hcb.
  exists (z + Z.of_nat (calls_before g i sched)),
         (z + Z.of_nat (calls_before g j sched)).
  split; [|split; [|split]].
  - rewrite (run_schedule_lookup sched store i g (of_Z z) Hi Hg).
    by rewrite add_ones_exact by lia.
  - rewrite (run_schedule_lookup sched store j g (of_Z z) Hj Hg).
    by rewrite add_ones_exact by lia.
  - lia.
  - intros Heq. apply (f_equal int_value) in Heq.
    rewrite !int_value_of_Z in Heq by (unfold safe; lia).
    injection Heq. lia.
Qed.

(** X21. Building a generator does not disturb the generators that
    exist: its variable is new, and any sequence of calls of other
    generators returns exactly what it would have returned had the new
    generator not been built. *)
Theorem new_id_generator_leaves_others (store store' : gmap nat spec_float)
  (s : spec_float) (g : nat) :
  getIdGeneratorFunction s store = (Returns g, store') ->
  store !! g = None
  /\ store' !! g = Some s
  /\ forall sched, g ∉ sched ->
       fst (run_schedule sched store') = fst (run_schedule sched store).
Proof.
  unfold getIdGeneratorFunction. intros [= <- <-].
  assert (Hfresh : store !! fresh (dom store) = None).
  { apply not_elem_of_dom. apply is_fresh. }
  split; [exact Hfresh|]. split; [apply lookup_insert_eq|].
  intros sched Hnot. by rewrite run_schedule_new_variable.
Qed.

(** X22. After any sequence of calls, the variable of an existing
    generator holds its initial content after one [value += 1] in
    binary64 for each call made to that generator, and this is the id
    its next call returns.  When the initial content is an integer [z]
    above [-2^53] and [z] plus the number of these calls is below [2^53],
    that id is [z] plus the number of these calls. *)
Theorem id_generator_variable_counts_calls (store : gmap nat spec_float)
  (sched : list nat) (g : nat) (current : spec_float) :
  store !! g = Some current ->
  snd (run_schedule sched store) !! g =
    Some (add_ones (calls_before g (length sched) sched) current)
  /\ fst (generator g (snd (run_schedule sched store))) =
     Returns (add_ones (calls_before g (length sched) sched) current)
  /\ forall z : Z,
       current = of_Z z ->
       - 2 ^ 53 < z ->
       z + Z.of_nat (calls_before g (length sched) sched) < 2 ^ 53 ->
       fst (generator g (snd (run_schedule sched store))) =
         Returns (of_Z (z + Z.of_nat (calls_before g (length sched) sched))).
Proof.
  intros Hg.
  pose proof (run_schedule_store sched store g current Hg) as Hs.
  split; [exact Hs|]. split; [by rewrite (generator_step _ _ _ Hs)|].
  intros z -> Hlo Hhi.
  rewrite (generator_step _ _ _ Hs). cbn [fst].
  by rewrite add_ones_exact.
Qed.

Lemma id_generator_ids_increase_witness :
  exists ri rj,
    fst (run_schedule [0; 1; 0; 0; 0; 1]%nat
           (<[1%nat := of_Z 10]> (<[0%nat := of_Z 4]> ∅))) !! 0%nat
      = Some (Returns (of_Z ri))
    /\ fst (run_schedule [0; 1; 0; 0; 0; 1]%nat
              (<[1%nat := of_Z 10]> (<[0%nat := of_Z 4]> ∅))) !! 3%nat
      = Some (Returns (of_Z rj))
    /\ ri < rj
    /\ of_Z ri <> of_Z rj.
Proof.
  apply (id_generator_ids_increase (<[1%nat := of_Z 10]> (<[0%nat := of_Z 4]> ∅))
           [0; 1; 0; 0; 0; 1]%nat 0%nat 4 0%nat 3%nat);
    [reflexivity|reflexivity|reflexivity|lia|lia|vm_compute; reflexivity].
Defined.

Lemma new_id_generator_leaves_others_witness :
  (<[0%nat := of_Z 4]> ∅ : gmap nat spec_float) !! 1%nat = None
  /\ (<[1%nat := of_Z 10]> (<[0%nat := of_Z 4]> ∅) : gmap nat spec_float) !! 1%nat
     = Some (of_Z 10)
  /\ fst (run_schedule [0; 0]%nat (<[1%nat := of_Z 10]> (<[0%nat := of_Z 4]> ∅))) =
     fst (run_schedule [0; 0]%nat (<[0%nat := of_Z 4]> ∅)).
Proof.
  pose proof (new_id_generator_leaves_others (<[0%nat := of_Z 4]> ∅)
                (<[1%nat := of_Z 10]> (<[0%nat := of_Z 4]> ∅)) (of_Z 10) 1%nat eq_refl)
    as (H1 & H2 & H3).
  split; [exact H1|]. split; [exact H2|].
  apply H3. intros Hin. by repeat (apply elem_of_cons in Hin as [Hin|Hin]; [lia|]);
    apply elem_of_nil in Hin.
Defined.

Lemma id_generator_variable_counts_calls_witness :
  snd (run_schedule [0; 1; 0]%nat (<[1%nat := of_Z 10]> (<[0%nat := of_Z 4]> ∅))) !! 0%nat =
    Some (add_ones (calls_before 0 (length [0; 1; 0]%nat) [0; 1; 0]%nat) (of_Z 4))
  /\ fst (generator 0 (snd (run_schedule [0; 1; 0]%nat
                              (<[1%nat := of_Z 10]> (<[0%nat := of_Z 4]> ∅))))) =
     Returns (of_Z (4 + Z.of_nat (calls_before 0 (length [0; 1; 0]%nat) [0; 1; 0]%nat))).
Proof.
  pose proof (id_generator_variable_counts_calls (<[1%nat := of_Z 10]> (<[0%nat := of_Z 4]> ∅))
                [0; 1; 0]%nat 0%nat (of_Z 4) eq_refl) as (H1 & _ & H3).
  split; [exact H1|].
  apply (H3 4); [reflexivity|lia|vm_compute; reflexivity].
Defined.

(** ** Wrappers of wrappers *)

(** X23. Memoizing a retried function: if fewer than [attempts] calls of
    [func] throw and the next one returns [v], every invocation of the
    memoized wrapper of [retry(func, attempts)] returns [v]; the retrying
    wrapper is called once, by the first invocation, and the world is the
    one left by the calls of [func] of that single run. *)
Theorem memoize_of_retry {W : Type} (func : JSFun W) (attempts : Z)
  (w0 w1 w2 : W) (errs : list Val) (v : Val) (args : list Val) (argss : list (list Val)) :
  Z.of_nat (length errs) < attempts ->
  call_n func (length errs) w0 = (map Throws errs, w1) ->
  fn_call func [] w1 = (Returns v, w2) ->
  invocations (memoize (stateless_function "" (retry func attempts))) (args :: argss)
    (boot (memoize (stateless_function "" (retry func attempts))) w0) =
    (repeat (Returns v) (S (length argss)),
     {| locals := {| cachedResult := v; isCached := true |};
        world := w2; trace := [Called CFunc []] |}).
Proof.
  intros Hlt Hn Hf.
  set (retrying := stateless_function "" (retry func attempts)).
  assert (Hrun : fn_call retrying [] w0 = (Returns v, w2)).
  { unfold retrying, stateless_function. simpl.
    by rewrite (retry_loop_success func attempts errs 0 VUndefined w0 [] w1 v w2). }
  rewrite invocations_cons.
  rewrite (memoize_miss_returns retrying args (boot (memoize retrying) w0) v w2 eq_refl Hrun).
  rewrite memoize_hits by reflexivity. reflexivity.
Qed.

Lemma memoize_of_retry_witness :
  invocations (memoize (stateless_function "" (retry flaky 2))) [[]; []; []]
    (boot (memoize (stateless_function "" (retry flaky 2))) 0%nat) =
    ([Returns (VNum 2); Returns (VNum 2); Returns (VNum 2)],
     {| locals := {| cachedResult := VNum 2; isCached := true |};
        world := 2%nat; trace := [Called CFunc []] |}).
Proof.
  apply (@memoize_of_retry nat flaky 2 0%nat 1%nat 2%nat [VStr "test"] (VNum 2) [] [[]; []]);
    [simpl; lia|reflexivity|reflexivity].
Defined.

